(** * LLGL JIT: the AMD64 assembler back end

    A shallow embedding of [sources/JIT/Arch/AMD64/AMD64Assembler.cpp] and
    [AMD64Opcode.h]: the instruction emission primitives, the prologue and
    epilogue, and [WriteFuncCall], which marshals the argument list of one
    native call.  The code buffer is a list of bytes, every member function
    of the assembler is a transformer of that buffer. *)

From Stdlib Require Import ZArith List Bool Lia.
From Stdlib Require String.
Import String.StringSyntax.
Delimit Scope string_scope with string.
Import ListNotations.
Open Scope Z_scope.

(** ** Registers *)

(** Modelled from the spec: the register enumeration ([AMD64Register.h] is not
    among the sources).  The assembler names [RAX], [RCX], [RDX], [RSP],
    [RBP], [RSI], [RDI], [R8] .. [R15] and [XMM0] .. [XMM7]; the enumeration
    lists the sixteen general-purpose registers in hardware order, then the
    vector registers. *)
Inductive Reg : Set :=
  | RAX | RCX | RDX | RBX | RSP | RBP | RSI | RDI
  | R8 | R9 | R10 | R11 | R12 | R13 | R14 | R15
  | XMM0 | XMM1 | XMM2 | XMM3 | XMM4 | XMM5 | XMM6 | XMM7
  | XMM8 | XMM9 | XMM10 | XMM11 | XMM12 | XMM13 | XMM14 | XMM15.

(** Modelled from the spec: the enumerator value of a register, which is what
    the comparisons [reg >= Reg::R8] and [dstReg <= Reg::R15] of the
    assembler compare. *)
Definition RegIndex (r : Reg) : Z :=
  match r with
  | RAX => 0 | RCX => 1 | RDX => 2 | RBX => 3
  | RSP => 4 | RBP => 5 | RSI => 6 | RDI => 7
  | R8 => 8 | R9 => 9 | R10 => 10 | R11 => 11
  | R12 => 12 | R13 => 13 | R14 => 14 | R15 => 15
  | XMM0 => 16 | XMM1 => 17 | XMM2 => 18 | XMM3 => 19
  | XMM4 => 20 | XMM5 => 21 | XMM6 => 22 | XMM7 => 23
  | XMM8 => 24 | XMM9 => 25 | XMM10 => 26 | XMM11 => 27
  | XMM12 => 28 | XMM13 => 29 | XMM14 => 30 | XMM15 => 31
  end.

Definition Reg_geb (a b : Reg) : bool := RegIndex b <=? RegIndex a.
Definition Reg_leb (a b : Reg) : bool := RegIndex a <=? RegIndex b.

(** Modelled from the spec: [RegByte], the "per-architecture numeric
    encoding" of a register: the three bits that go into an opcode or a
    ModR/M field. *)
Definition RegByte (r : Reg) : Z := Z.land (RegIndex r) 7.

(** Modelled from the spec: [Is64Reg], true of the general-purpose 64-bit
    registers [RAX] .. [R15]. *)
Definition Is64Reg (r : Reg) : bool := Reg_geb r RAX && Reg_leb r R15.

(** The registers "beyond the base eight": the test
    [dstReg >= Reg::R8 && dstReg <= Reg::R15] of [WriteFuncCall]. *)
Definition IsExtReg (r : Reg) : bool := Reg_geb r R8 && Reg_leb r R15.

(** ** Opcode bytes ([AMD64Opcode.h]) *)

Definition REX_Prefix : Z := 0x40.
Definition REX_W : Z := 0x08.
Definition REX_R : Z := 0x04.
Definition REX_B : Z := 0x01.

Definition Operand_Mod01 : Z := 0x40.
Definition Operand_Mod10 : Z := 0x80.
Definition Operand_Mod11 : Z := 0xC0.

Definition Opcode_PushImm : Z := 0x68.
Definition Opcode_PushImm8 : Z := 0x6A.
Definition Opcode_PushReg : Z := 0x50.
Definition Opcode_PopReg : Z := 0x58.
Definition Opcode_AddImm : Z := 0x81.
Definition Opcode_SubImm : Z := 0x81.
Definition Opcode_DivReg : Z := 0xF7.
Definition Opcode_MovRegImm8 : Z := 0xB0.
Definition Opcode_MovRegImm : Z := 0xB8.
Definition Opcode_MovMemImm : Z := 0xC7.
Definition Opcode_MovMemReg : Z := 0x89.
Definition Opcode_RetNear : Z := 0xC3.
Definition Opcode_RetFar : Z := 0xCB.
Definition Opcode_RetNearImm16 : Z := 0xC2.
Definition Opcode_RetFarImm16 : Z := 0xCA.
Definition Opcode_CallNear : Z := 0x10.

Definition UCHAR_MAX : Z := 255.
Definition SIZE_MAX : Z := 2 ^ 64 - 1.

(** ** The code buffer *)

(** The bytes emitted so far, oldest first; a byte is an integer in
    [0, 256). *)
Definition Assembly : Set := list Z.

(** A member function of the assembler: it only ever appends to the buffer. *)
Definition Emit : Set := Assembly -> Assembly.

Definition skip : Emit := fun buf => buf.
Definition seq_emit (a b : Emit) : Emit := fun buf => b (a buf).
Notation "a ;; b" := (seq_emit a b) (at level 61, right associativity).

(** Conversion of an integer to [std::uint8_t] / [std::uint32_t]. *)
Definition u8 (z : Z) : Z := Z.land z 0xFF.
Definition u32 (z : Z) : Z := Z.land z 0xFFFFFFFF.

(** Modelled from the spec: the append operations of the byte stream buffer
    ([JITCompiler], not among the sources).  Multi-byte values are serialized
    low byte first, [IsLittleEndian] of this back end being [true]. *)
Definition WriteByte (b : Z) : Emit := fun buf => buf ++ [u8 b].

Definition WriteWord (w : Z) : Emit :=
  WriteByte w ;; WriteByte (Z.shiftr w 8).

Definition WriteDWord (d : Z) : Emit :=
  WriteByte d ;; WriteByte (Z.shiftr d 8) ;;
  WriteByte (Z.shiftr d 16) ;; WriteByte (Z.shiftr d 24).

Definition WriteQWord (q : Z) : Emit :=
  WriteDWord q ;; WriteDWord (Z.shiftr q 32).

Definition IsLittleEndian : bool := true.

(** ** Emission primitives ([AMD64Assembler.cpp], private part) *)

Definition WriteREXOpt (reg : Reg) : Emit :=
  let prefix := 0 in
  let prefix :=
    if Is64Reg reg then
      let prefix := Z.lor prefix REX_W in
      if Reg_geb reg R8 then Z.lor prefix REX_B else prefix
    else prefix in
  if negb (prefix =? 0) then WriteByte (Z.lor REX_Prefix prefix) else skip.

Definition PushReg (reg : Reg) : Emit :=
  WriteByte (Z.lor Opcode_PushReg (RegByte reg)).

Definition PushImm8 (byte : Z) : Emit :=
  WriteByte Opcode_PushImm8 ;; WriteByte byte.

Definition PushImm32 (dword : Z) : Emit :=
  WriteByte Opcode_PushImm ;; WriteDWord dword.

Definition PushImm16 (word : Z) : Emit := PushImm32 word.

Definition PopReg (reg : Reg) : Emit :=
  WriteByte (Z.lor Opcode_PopReg (RegByte reg)).

Definition MovReg (dst src : Reg) : Emit :=
  WriteREXOpt dst ;;
  WriteByte Opcode_MovMemReg ;;
  WriteByte (Z.lor (Z.lor Operand_Mod11 (Z.shiftl (RegByte src) 3)) (RegByte dst)).

Definition MovRegImm32 (reg : Reg) (dword : Z) : Emit :=
  WriteByte (Z.lor Opcode_MovRegImm (RegByte reg)) ;;
  WriteDWord dword.

Definition MovRegImm64 (reg : Reg) (qword : Z) : Emit :=
  WriteREXOpt reg ;;
  WriteByte (Z.lor Opcode_MovRegImm (RegByte reg)) ;;
  WriteQWord qword.

(** The ModR/M mode bits chosen from the offset, shared by [MovMemImm32] and
    [MovMemReg] (local variable [disp] of both). *)
Definition disp_mode (offset : Z) : Z :=
  let disp := 0 in
  if 0 <? offset then
    if UCHAR_MAX <? offset then Z.lor disp Operand_Mod10
    else Z.lor disp Operand_Mod01
  else disp.

(** The optional displacement field, shared by [MovMemImm32] and
    [MovMemReg]. *)
Definition WriteDisp (offset : Z) : Emit :=
  if 0 <? offset then
    if UCHAR_MAX <? offset then WriteDWord offset
    else WriteByte (u8 offset)
  else skip.

Definition MovMemImm32 (reg : Reg) (dword : Z) (offset : Z) : Emit :=
  let offset := u32 offset in
  let disp := disp_mode offset in
  WriteREXOpt reg ;;
  WriteByte Opcode_MovMemImm ;;
  WriteByte (Z.lor disp (RegByte reg)) ;;
  WriteDisp offset ;;
  WriteDWord dword.

Definition MovMemReg (dstMemReg srcReg : Reg) (offset : Z) : Emit :=
  let offset := u32 offset in
  let disp := disp_mode offset in
  WriteREXOpt srcReg ;;
  WriteByte Opcode_MovMemReg ;;
  WriteByte (Z.lor (Z.lor disp (Z.shiftl (RegByte srcReg) 3)) (RegByte dstMemReg)) ;;
  WriteDisp offset.

Definition AddImm32 (dst : Reg) (dword : Z) : Emit :=
  WriteREXOpt dst ;;
  WriteByte Opcode_AddImm ;;
  WriteByte (Z.lor Operand_Mod11 (RegByte dst)) ;;
  WriteDWord dword.

Definition SubImm32 (dst : Reg) (dword : Z) : Emit :=
  WriteREXOpt dst ;;
  WriteByte Opcode_SubImm ;;
  WriteByte (Z.lor (Z.lor Operand_Mod11 (Z.shiftl 5 3)) (RegByte dst)) ;;
  WriteDWord dword.

Definition DivReg (src : Reg) : Emit :=
  WriteREXOpt src ;;
  WriteByte Opcode_DivReg ;;
  WriteByte (Z.lor (Z.lor Operand_Mod11 (Z.shiftl 6 3)) (RegByte src)).

Definition CallNear (reg : Reg) : Emit :=
  WriteByte 0xFF ;;
  WriteByte (Z.lor (Z.lor Opcode_CallNear Operand_Mod11) (RegByte reg)).

(** [RetNear] and [RetFar] are declared with the default argument [0];
    [word] is a [std::uint16_t], a number from 0 to [2^16 - 1]. *)
Definition RetNear (word : Z) : Emit :=
  if 0 <? word then WriteByte Opcode_RetNearImm16 ;; WriteWord word
  else WriteByte Opcode_RetNear.

Definition RetFar (word : Z) : Emit :=
  if 0 <? word then WriteByte Opcode_RetFarImm16 ;; WriteWord word
  else WriteByte Opcode_RetFar.

(** ** Arguments of a call *)

(** Modelled from the spec: the type tag of an argument ([JITCompiler.h] is
    not among the sources); the seven tags are the case labels of
    [WriteFuncCall]. *)
Inductive ArgType : Set :=
  | Byte | Word | DWord | QWord | Ptr | Float | Double.

(** Modelled from the spec: one argument, a type tag and a 64-bit raw
    payload (the union [value]). *)
Record Arg : Set := mkArg { type : ArgType; value : Z }.

(** Modelled from the spec: the members of the union read the low bits of the
    payload (little-endian host). *)
Definition i8 (v : Z) : Z := Z.land v 0xFF.
Definition i16 (v : Z) : Z := Z.land v 0xFFFF.
Definition i32 (v : Z) : Z := Z.land v 0xFFFFFFFF.
Definition i64 (v : Z) : Z := Z.land v 0xFFFFFFFFFFFFFFFF.

(** Modelled from the spec: "Float/Double -> float-register cursor; all
    others -> integer-register cursor". *)
Definition IsFloat (t : ArgType) : bool :=
  match t with
  | Float | Double => true
  | _ => false
  end.

(** Modelled from the spec: the calling-convention enumeration
    ([JITCompiler.h] is not among the sources).  [WriteFuncCall] takes one
    and never looks at it. *)
Inductive JITCallConv : Set := CDecl | StdCall | ThisCall.

(** ** Parameter registers *)

(** The platform the assembler is compiled for: [#ifdef _WIN32] selects the
    Microsoft x64 tables, [#else] the System V ones. *)
Inductive Target : Set := Win32 | SystemV.

Definition g_amd64IntParams (t : Target) : list Reg :=
  match t with
  | Win32 => [RCX; RDX; R8; R9]
  | SystemV => [RDI; RSI; RDX; RCX; R8; R9]
  end.

Definition g_amd64FltParams (t : Target) : list Reg :=
  match t with
  | Win32 => [XMM0; XMM1; XMM2; XMM3]
  | SystemV => [XMM0; XMM1; XMM2; XMM3; XMM4; XMM5; XMM6; XMM7]
  end.

Definition g_amd64IntParamsCount (t : Target) : Z :=
  Z.of_nat (length (g_amd64IntParams t)).

Definition g_amd64FltParamsCount (t : Target) : Z :=
  Z.of_nat (length (g_amd64FltParams t)).

(** ** Prologue and epilogue *)

Definition Begin : Emit :=
  PushReg RBP ;;
  MovReg RBP RSP ;;
  SubImm32 RSP 0x20.

Definition End : Emit :=
  AddImm32 RSP 0x20 ;;
  PopReg RBP ;;
  RetNear 0.

(** ** WriteFuncCall *)

(** "Move value into destination register": the second half of the body of
    the first loop. *)
Definition MoveArgIntoReg (dstReg : Reg) (arg : Arg) : Emit :=
  if Reg_geb dstReg R8 && Reg_leb dstReg R15 then
    MovRegImm64 dstReg (i64 (value arg))
  else
    match type arg with
    | Byte => MovRegImm32 dstReg (i8 (value arg))
    | Word => MovRegImm32 dstReg (i16 (value arg))
    | DWord => MovRegImm32 dstReg (i32 (value arg))
    | QWord => MovRegImm64 dstReg (i64 (value arg))
    | Ptr => MovRegImm64 dstReg (i64 (value arg))
    | Float => skip
    | Double => skip
    end.

(** The local variables of [WriteFuncCall] that the first loop updates, and
    the code buffer.  [assigned] is a ghost variable: it records, for every
    [dstReg = g_amd64...Params[n++]], the argument index and the register, in
    the order of the assignments. *)
Record RegPass : Set := mkRegPass {
  numIntRegs : Z;
  numFltRegs : Z;
  lastInt : Z;
  lastFlt : Z;
  assigned : list (Z * Reg);
  assembly : Assembly
}.

Definition RegPass_init (buf : Assembly) : RegPass :=
  mkRegPass 0 0 SIZE_MAX SIZE_MAX [] buf.

(** The first loop, "Move first couple of arguments into registers", run on
    the arguments [args[i], args[i+1], ...]; its [break] leaves the state as
    it is. *)
Fixpoint RegisterPass (t : Target) (args : list Arg) (i : Z) (st : RegPass)
  : RegPass :=
  match args with
  | [] => st
  | arg :: rest =>
    let isFloat := IsFloat (type arg) in
    if isFloat && (numFltRegs st <? g_amd64FltParamsCount t) then
      let dstReg := nth (Z.to_nat (numFltRegs st)) (g_amd64FltParams t) R10 in
      RegisterPass t rest (i + 1)
        (mkRegPass (numIntRegs st) (numFltRegs st + 1) (lastInt st) i
           (assigned st ++ [(i, dstReg)])
           (MoveArgIntoReg dstReg arg (assembly st)))
    else if negb isFloat && (numIntRegs st <? g_amd64IntParamsCount t) then
      let dstReg := nth (Z.to_nat (numIntRegs st)) (g_amd64IntParams t) R10 in
      RegisterPass t rest (i + 1)
        (mkRegPass (numIntRegs st + 1) (numFltRegs st) i (lastFlt st)
           (assigned st ++ [(i, dstReg)])
           (MoveArgIntoReg dstReg arg (assembly st)))
    else st
  end.

(** "Push argument onto stack": the [switch] of the second loop. *)
Definition PushArg (arg : Arg) : Emit :=
  match type arg with
  | Byte => PushImm8 (i8 (value arg))
  | Word => PushImm16 (i16 (value arg))
  | DWord | Float => PushImm32 (i32 (value arg))
  | QWord | Ptr | Double => skip
  end.

(** The second loop, "Push remaining arguments onto stack", with [n]
    iterations left ([n = num - i]); its [break] leaves the buffer as it
    is. *)
Fixpoint StackPass (n : nat) (args : list Arg) (num i : Z)
    (lastInt lastFlt : Z) (buf : Assembly) : Assembly :=
  match n with
  | O => buf
  | S n' =>
    let iRev := num - i - 1 in
    let arg := nth (Z.to_nat iRev) args (mkArg Byte 0) in
    let isFloat := IsFloat (type arg) in
    if (isFloat && (iRev =? lastFlt)) || (negb isFloat && (iRev =? lastInt))
    then buf
    else StackPass n' args num (i + 1) lastInt lastFlt (PushArg arg buf)
  end.

(** [WriteFuncCall(addr, conv, farCall)] of an assembler whose argument list
    is [args]. *)
Definition WriteFuncCall (t : Target) (args : list Arg)
    (addr : Z) (conv : JITCallConv) (farCall : bool) : Emit :=
  fun buf =>
    let num := Z.of_nat (length args) in
    let st := RegisterPass t args 0 (RegPass_init buf) in
    let buf := StackPass (length args) args num 0 (lastInt st) (lastFlt st)
                 (assembly st) in
    (MovRegImm64 RAX addr ;; CallNear RAX) buf.

(** The registers handed out by [WriteFuncCall], in argument order. *)
Definition RegisterAssignment (t : Target) (args : list Arg) : list (Z * Reg) :=
  assigned (RegisterPass t args 0 (RegPass_init [])).

(** The whole generated sequence: prologue, call, epilogue. *)
Definition GenerateCall (t : Target) (args : list Arg)
    (addr : Z) (conv : JITCallConv) (farCall : bool) : Assembly :=
  (Begin ;; WriteFuncCall t args addr conv farCall ;; End) [].

(** The outcome of building a call.  No member function of the assembler
    throws or returns a status: the only outcome the code has is a finished
    buffer. *)
Inductive BuildResult : Set :=
  | Built (code : Assembly)
  | Rejected.

Definition Build (t : Target) (args : list Arg)
    (addr : Z) (conv : JITCallConv) (farCall : bool) : BuildResult :=
  Built (GenerateCall t args addr conv farCall).

(** ** The stack pointer across the generated code

    What the instructions the assembler emits do to [RSP] in 64-bit mode: a
    small decoder for exactly those encodings.  [push] and [pop] move [RSP] by
    the natural width of eight bytes whatever the width of the immediate;
    [add]/[sub] on [RSP] move it by the sign-extended immediate; a [call]
    through a register leaves it unchanged once the callee has returned (both
    register tables belong to caller-cleanup conventions); the moves leave it
    alone as long as [RSP] is not their destination. *)

Inductive StackStep : Set :=
  | Move (d : Z)
  | Return.

Definition le32 (b0 b1 b2 b3 : Z) : Z :=
  b0 + 256 * b1 + 65536 * b2 + 16777216 * b3.

Definition sext32 (z : Z) : Z :=
  if z <? 2 ^ 31 then z else z - 2 ^ 32.

Definition in_range (lo x hi : Z) : bool := (lo <=? x) && (x <=? hi).

(** The operand-size override prefix, which turns a push into a two-byte
    push. *)
Definition OperandSize_Prefix : Z := 0x66.

Definition decode_rexw (rexb : bool) (code : Assembly)
  : option (StackStep * Assembly) :=
  match code with
  | op :: rest =>
    if in_range 0xB8 op 0xBF then
      (* mov r64, imm64 *)
      if negb rexb && (op =? 0xBC) then None
      else match rest with
           | _ :: _ :: _ :: _ :: _ :: _ :: _ :: _ :: rest' => Some (Move 0, rest')
           | _ => None
           end
    else if op =? 0x89 then
      (* mov r/m64, r64 with a register destination *)
      match rest with
      | m :: rest' =>
        if negb (Z.land m 0xC0 =? 0xC0) then None
        else if negb rexb && (Z.land m 7 =? 4) then None
        else Some (Move 0, rest')
      | _ => None
      end
    else if op =? 0x81 then
      (* add / sub r/m64, imm32 with a register destination *)
      match rest with
      | m :: b0 :: b1 :: b2 :: b3 :: rest' =>
        if negb (Z.land m 0xC0 =? 0xC0) then None
        else if negb rexb && (Z.land m 7 =? 4) then
          if Z.land m 0x38 =? 0x00 then
            Some (Move (sext32 (le32 b0 b1 b2 b3)), rest')
          else if Z.land m 0x38 =? 0x28 then
            Some (Move (- sext32 (le32 b0 b1 b2 b3)), rest')
          else None
        else Some (Move 0, rest')
      | _ => None
      end
    else None
  | [] => None
  end.

Definition decode (code : Assembly) : option (StackStep * Assembly) :=
  match code with
  | op :: rest =>
    if in_range 0x50 op 0x57 then Some (Move (-8), rest)            (* push r64 *)
    else if in_range 0x58 op 0x5F then                               (* pop r64 *)
      if op =? 0x5C then None else Some (Move 8, rest)
    else if op =? 0x6A then                                          (* push imm8 *)
      match rest with
      | _ :: rest' => Some (Move (-8), rest')
      | _ => None
      end
    else if op =? 0x68 then                                          (* push imm32 *)
      match rest with
      | _ :: _ :: _ :: _ :: rest' => Some (Move (-8), rest')
      | _ => None
      end
    else if in_range 0xB8 op 0xBF then                               (* mov r32, imm32 *)
      if op =? 0xBC then None
      else match rest with
           | _ :: _ :: _ :: _ :: rest' => Some (Move 0, rest')
           | _ => None
           end
    else if op =? 0xFF then                                          (* call r64 *)
      match rest with
      | m :: rest' =>
        if Z.land m 0xF8 =? 0xD0 then Some (Move 0, rest') else None
      | _ => None
      end
    else if op =? 0xC3 then Some (Return, rest)                      (* ret *)
    else if op =? 0x48 then decode_rexw false rest
    else if op =? 0x49 then decode_rexw true rest
    else None
  | [] => None
  end.

(** Runs the code from its first byte; the displacement of [RSP] from its
    value on entry when the [ret] is reached. *)
Fixpoint sp_at_return (fuel : nat) (code : Assembly) (sp : Z) : option Z :=
  match fuel with
  | O => None
  | S fuel' =>
    match decode code with
    | Some (Move d, rest) => sp_at_return fuel' rest (sp + d)
    | Some (Return, _) => Some sp
    | None => None
    end
  end.

Definition StackDisplacement (code : Assembly) : option Z :=
  sp_at_return (S (length code)) code 0.

(** ** Reading the first byte of an instruction *)

(** A REX prefix is a byte [0100WRXB]. *)
Definition is_REX (b : Z) : bool := Z.land b 0xF0 =? REX_Prefix.

Definition begins_with_REX (code : Assembly) : bool :=
  match code with
  | b :: _ => is_REX b
  | [] => false
  end.

(** * Notions used by the properties *)

(** Arguments of the three kinds used in the examples. *)
Definition DW (v : Z) : Arg := mkArg DWord v.
Definition QW (v : Z) : Arg := mkArg QWord v.
Definition FL (v : Z) : Arg := mkArg Float v.

Definition dummy_arg : Arg := mkArg Byte 0.

(** ** Appending to the buffer *)

(** An emitter that leaves what is in the buffer alone and appends to it. *)
Definition Appends (e : Emit) : Prop := forall buf, e buf = buf ++ e [].

Create HintDb emit.

(** The four and eight bytes of an immediate, low byte first. *)
Definition imm32 (d : Z) : Assembly :=
  [u8 d; u8 (Z.shiftr d 8); u8 (Z.shiftr d 16); u8 (Z.shiftr d 24)].

Definition imm64 (q : Z) : Assembly := imm32 q ++ imm32 (Z.shiftr q 32).

(** Whether an offset fits the one-byte displacement of the processor, which
    is a signed byte. *)
Definition fits_signed_byte (offset : Z) : bool :=
  (-128 <=? offset) && (offset <=? 127).

(** ** The state of the first loop *)

Definition IsFltReg (r : Reg) : bool := Reg_geb r XMM0.

(** How many entries of an assignment are integer registers, how many are
    vector registers. *)
Definition int_assigned (l : list (Z * Reg)) : Z :=
  Z.of_nat (length (filter (fun p => Is64Reg (snd p)) l)).

Definition flt_assigned (l : list (Z * Reg)) : Z :=
  Z.of_nat (length (filter (fun p => IsFltReg (snd p)) l)).

(** The loop invariant: both cursors stay within their table, and they count
    the registers handed out so far. *)
Record RegPass_ok (t : Target) (st : RegPass) : Prop := mkRegPass_ok {
  ok_int : 0 <= numIntRegs st <= g_amd64IntParamsCount t;
  ok_flt : 0 <= numFltRegs st <= g_amd64FltParamsCount t;
  ok_int_assigned : int_assigned (assigned st) = numIntRegs st;
  ok_flt_assigned : flt_assigned (assigned st) = numFltRegs st
}.

(** Whether the cursor that an argument consults is exhausted in state
    [st]. *)
Definition cursor_exhausted (t : Target) (st : RegPass) (arg : Arg) : bool :=
  if IsFloat (type arg) then g_amd64FltParamsCount t <=? numFltRegs st
  else g_amd64IntParamsCount t <=? numIntRegs st.

(** The table an argument takes its register from, and the register its
    cursor points at. *)
Definition params_of (t : Target) (arg : Arg) : list Reg :=
  if IsFloat (type arg) then g_amd64FltParams t else g_amd64IntParams t.

Definition next_reg (t : Target) (st : RegPass) (arg : Arg) : Reg :=
  if IsFloat (type arg)
  then nth (Z.to_nat (numFltRegs st)) (g_amd64FltParams t) R10
  else nth (Z.to_nat (numIntRegs st)) (g_amd64IntParams t) R10.

(** The state after one iteration that hands [args[i]] a register: the two
    assigning branches of the loop body in one. *)
Definition AssignStep (t : Target) (arg : Arg) (i : Z) (st : RegPass)
  : RegPass :=
  let dstReg := next_reg t st arg in
  mkRegPass
    (if IsFloat (type arg) then numIntRegs st else numIntRegs st + 1)
    (if IsFloat (type arg) then numFltRegs st + 1 else numFltRegs st)
    (if IsFloat (type arg) then lastInt st else i)
    (if IsFloat (type arg) then i else lastFlt st)
    (assigned st ++ [(i, dstReg)])
    (MoveArgIntoReg dstReg arg (assembly st)).

(** The indices [i], [i+1], ..., [i+k-1]. *)
Definition indices_from (i : Z) (k : nat) : list Z :=
  map (fun j => i + Z.of_nat j) (seq 0 k).

(** The two "last index" variables hold either their initial [~0] or the
    index of an argument before [i]. *)
Definition Last_before (i : Z) (st : RegPass) : Prop :=
  (lastInt st = SIZE_MAX \/ 0 <= lastInt st < i) /\
  (lastFlt st = SIZE_MAX \/ 0 <= lastFlt st < i).

(** What the first loop, run on [args] from index [i] in state [st], has
    done when it hands out the registers [new] to [k] arguments. *)
Record PassResult (t : Target) (args : list Arg) (i : Z) (st : RegPass)
    (k : nat) (new : list (Z * Reg)) : Prop := mkPassResult {
  pr_len : (k <= length args)%nat;
  pr_assigned : assigned (RegisterPass t args i st) = assigned st ++ new;
  pr_indices : map fst new = indices_from i k;
  pr_class : forall j r, In (j, r) new ->
      In r (params_of t (nth (Z.to_nat (j - i)) args dummy_arg));
  pr_stop : (k < length args)%nat ->
      cursor_exhausted t (RegisterPass t args i st) (nth k args dummy_arg)
      = true;
  pr_last_none : k = 0%nat ->
      lastInt (RegisterPass t args i st) = lastInt st /\
      lastFlt (RegisterPass t args i st) = lastFlt st;
  pr_last_some : (0 < k)%nat ->
      if IsFloat (type (nth (k - 1) args dummy_arg))
      then lastFlt (RegisterPass t args i st) = i + Z.of_nat k - 1
      else lastInt (RegisterPass t args i st) = i + Z.of_nat k - 1;
  pr_last_before : Last_before (i + Z.of_nat k) (RegisterPass t args i st)
}.

(** The state [st] with another code buffer. *)
Definition with_assembly (st : RegPass) (buf : Assembly) : RegPass :=
  mkRegPass (numIntRegs st) (numFltRegs st) (lastInt st) (lastFlt st)
    (assigned st) buf.

(** ** Independent classification

    The reading in which every argument is classified on its own: an
    argument receives a register exactly when fewer arguments of its own
    class than the class has registers stand before it. *)

Definition receives_register (t : Target) (args : list Arg) (i : nat) : Prop :=
  exists r, In (Z.of_nat i, r) (RegisterAssignment t args).

Definition same_class_before (args : list Arg) (i : nat) : Z :=
  Z.of_nat (length (filter
    (fun a => Bool.eqb (IsFloat (type a))
                       (IsFloat (type (nth i args dummy_arg))))
    (firstn i args))).

Definition class_count (t : Target) (arg : Arg) : Z :=
  if IsFloat (type arg) then g_amd64FltParamsCount t
  else g_amd64IntParamsCount t.

Definition classified_independently (t : Target) (args : list Arg) : Prop :=
  forall i, (i < length args)%nat ->
    (receives_register t args i <->
     same_class_before args i < class_count t (nth i args dummy_arg)).


(** ** The parts of the code of a call *)

(** The register loads that [WriteFuncCall] emits. *)
Definition RegisterLoads (t : Target) (args : list Arg) : Assembly :=
  assembly (RegisterPass t args 0 (RegPass_init [])).

(** The arguments that the first loop leaves without a register. *)
Definition Unassigned (t : Target) (args : list Arg) : list Arg :=
  skipn (length (RegisterAssignment t args)) args.

(** The code of the pushes of a list of arguments, in the order of the
    list. *)
Definition spill_code (l : list Arg) : Assembly :=
  concat (map (fun a => PushArg a []) l).

(** The arguments for which [PushArg] emits a push. *)
Definition is_pushed (a : Arg) : bool :=
  match type a with
  | Byte | Word | DWord | Float => true
  | QWord | Ptr | Double => false
  end.

Definition pushed_count (l : list Arg) : Z :=
  Z.of_nat (length (filter is_pushed l)).

(** ** Straight-line code *)

(** One whole instruction with a given effect on [RSP], whatever follows
    it. *)
Definition Instruction (ins : Assembly) (d : Z) : Prop :=
  forall rest, decode (ins ++ rest) = Some (Move d, rest).

(** Whole instructions one after the other, none of them a return, and what
    they do to [RSP] in total. *)
Inductive Straight : Assembly -> Z -> Prop :=
  | Straight_nil : Straight [] 0
  | Straight_cons ins d code d' :
      Instruction ins d -> Straight code d' -> Straight (ins ++ code) (d + d').

(** * Notions for the further properties *)

(** ** Reading encodings back *)

(** The value of a sequence of bytes, low byte first. *)
Definition le_bytes (l : list Z) : Z :=
  fold_right (fun b acc => b + 256 * acc) 0 l.


(** The three fields of a ModR/M byte. *)
Definition modrm_mod (m : Z) : Z := Z.shiftr m 6.
Definition modrm_reg (m : Z) : Z := Z.land (Z.shiftr m 3) 7.
Definition modrm_rm (m : Z) : Z := Z.land m 7.


(** ** Counting arguments by class *)

Definition count_int (args : list Arg) : Z :=
  Z.of_nat (length (filter (fun a => negb (IsFloat (type a))) args)).

Definition count_flt (args : list Arg) : Z :=
  Z.of_nat (length (filter (fun a => IsFloat (type a)) args)).

(** The code of the register load of one assignment. *)
Definition load_code (args : list Arg) (p : Z * Reg) : Assembly :=
  MoveArgIntoReg (snd p) (nth (Z.to_nat (fst p)) args dummy_arg) [].

(** The registers of an assignment, by class. *)
Definition int_regs (l : list (Z * Reg)) : list Reg :=
  filter Is64Reg (map snd l).

Definition flt_regs (l : list (Z * Reg)) : list Reg :=
  filter IsFltReg (map snd l).

(** The cursors point behind the registers handed out, which are the
    leading entries of the two tables, in the order of the tables. *)
Record RegPass_tables (t : Target) (st : RegPass) : Prop := mkRegPass_tables {
  rt_ok : RegPass_ok t st;
  rt_int : int_regs (assigned st)
           = firstn (Z.to_nat (numIntRegs st)) (g_amd64IntParams t);
  rt_flt : flt_regs (assigned st)
           = firstn (Z.to_nat (numFltRegs st)) (g_amd64FltParams t)
}.

(** * Vertex formats ([VertexFormat.cpp])

    [VertexFormat::AddAttribute] appends one attribute to a vertex format
    and advances the size of the format.  The enumeration of data types and
    [GetDataTypeSize] are declared elsewhere and stay parameters; the members
    [attributes_] and [formatSize_] are the state, [formatSize_] an unsigned
    32-bit integer like the parameter [components]. *)

Module VertexFormat.

Section WithDataTypes.

Variable DataType : Type.
Variable GetDataTypeSize : DataType -> Z.

Record VertexAttribute : Type := mkVertexAttribute {
  dataType : DataType;
  components : Z;
  offset : Z;
  name : String.string
}.

Record VertexFormat : Type := mkVertexFormat {
  attributes_ : list VertexAttribute;
  formatSize_ : Z
}.

(** What a call comes back with: the format as it is after the call, or the
    exception [std::invalid_argument], whose message quotes the rejected
    number of components. *)
Inductive Result : Type :=
  | Ok (fmt : VertexFormat)
  | invalid_argument (components : Z).

(** [components] is an [unsigned int]: a number from 0 to [2^32 - 1]. *)
Definition AddAttribute (name : String.string) (dataType : DataType)
    (components : Z) (fmt : VertexFormat) : Result :=
  if (components <? 1) || (4 <? components) then
    invalid_argument components
  else
    let attrib :=
      mkVertexAttribute dataType components (formatSize_ fmt) name in
    Ok (mkVertexFormat
          (attributes_ fmt ++ [attrib])
          (u32 (formatSize_ fmt + GetDataTypeSize dataType * components))).

(** One call after the other on the same format; an exception ends the
    sequence. *)
Fixpoint AddAttributes (specs : list (String.string * DataType * Z))
    (fmt : VertexFormat) : Result :=
  match specs with
  | [] => Ok fmt
  | (name, dataType, components) :: rest =>
    match AddAttribute name dataType components fmt with
    | Ok fmt' => AddAttributes rest fmt'
    | invalid_argument c => invalid_argument c
    end
  end.

(** The bytes that an attribute takes. *)
Definition attribute_size (a : VertexAttribute) : Z :=
  GetDataTypeSize (dataType a) * components a.

Definition spec_size (s : String.string * DataType * Z) : Z :=
  GetDataTypeSize (snd (fst s)) * snd s.

Definition total_size (specs : list (String.string * DataType * Z)) : Z :=
  fold_right (fun s acc => spec_size s + acc) 0 specs.

(** The attributes lie back to back from [start] and end at [total]. *)
Fixpoint Packed (start : Z) (attrs : list VertexAttribute) (total : Z)
  : Prop :=
  match attrs with
  | [] => total = start
  | a :: rest =>
    offset a = start /\ Packed (start + attribute_size a) rest total
  end.

(** A format whose attributes are packed from offset 0 up to its size. *)
Definition valid_components (c : Z) : Prop := 1 <= c <= 4.

(** A format as a sequence of calls builds it: its attributes have one to
    four components and are packed from offset 0 up to its size. *)
Definition Layout (fmt : VertexFormat) : Prop :=
  Packed 0 (attributes_ fmt) (formatSize_ fmt) /\
  Forall (fun a => valid_components (components a)) (attributes_ fmt) /\
  0 <= formatSize_ fmt < 2 ^ 32.

End WithDataTypes.

Arguments dataType {DataType} _.
Arguments components {DataType} _.
Arguments offset {DataType} _.
Arguments name {DataType} _.
Arguments attributes_ {DataType} _.
Arguments formatSize_ {DataType} _.
Arguments Ok {DataType} _.
Arguments invalid_argument {DataType} _.

End VertexFormat.

(** Two data types of four and eight bytes and the empty format, for the
    examples. *)
Definition example_size (wide : bool) : Z := if wide then 8 else 4.

Definition empty_format : VertexFormat.VertexFormat bool :=
  VertexFormat.mkVertexFormat bool [] 0.

(** The number of bits of the payload that belong to an argument of a given
    type; a [Float] is pushed as its 32 bits. *)
Definition arg_bits (ty : ArgType) : Z :=
  match ty with
  | Byte => 8
  | Word => 16
  | DWord | Float => 32
  | QWord | Ptr | Double => 64
  end.

(** The prefix byte of an instruction on a 64-bit register: [REX.W], with
    [REX.B] for one of [R8] .. [R15]. *)
Definition expected_REX (reg : Reg) : Z :=
  if IsExtReg reg then 0x49 else 0x48.

(** * Properties *)

(** ** The buffer is append-only *)

Lemma Appends_skip : Appends skip.
Proof. intro buf. unfold skip. now rewrite app_nil_r. Qed.

Lemma Appends_WriteByte b : Appends (WriteByte b).
Proof. intro buf. reflexivity. Qed.

Lemma Appends_seq a b : Appends a -> Appends b -> Appends (a ;; b).
Proof.
  intros Ha Hb buf. unfold seq_emit.
  rewrite (Hb (a buf)), (Hb (a [])), (Ha buf). now rewrite app_assoc.
Qed.

#[local] Hint Resolve Appends_skip Appends_WriteByte Appends_seq : emit.

Lemma seq_emit_nil a b : Appends b -> (a ;; b) [] = a [] ++ b [].
Proof. intros Hb. unfold seq_emit. apply Hb. Qed.

Lemma Appends_WriteDWord d : Appends (WriteDWord d).
Proof. unfold WriteDWord. auto 10 with emit. Qed.
#[local] Hint Resolve Appends_WriteDWord : emit.

Lemma Appends_WriteQWord q : Appends (WriteQWord q).
Proof. unfold WriteQWord. auto with emit. Qed.
#[local] Hint Resolve Appends_WriteQWord : emit.

Lemma Appends_WriteREXOpt reg : Appends (WriteREXOpt reg).
Proof. unfold WriteREXOpt. destruct reg; cbn; auto with emit. Qed.
#[local] Hint Resolve Appends_WriteREXOpt : emit.

Lemma Appends_MovRegImm32 reg d : Appends (MovRegImm32 reg d).
Proof. unfold MovRegImm32. auto with emit. Qed.

Lemma Appends_MovRegImm64 reg q : Appends (MovRegImm64 reg q).
Proof. unfold MovRegImm64. auto with emit. Qed.

Lemma Appends_PushImm32 d : Appends (PushImm32 d).
Proof. unfold PushImm32. auto with emit. Qed.

Lemma Appends_PushImm8 b : Appends (PushImm8 b).
Proof. unfold PushImm8. auto with emit. Qed.

Lemma Appends_CallNear reg : Appends (CallNear reg).
Proof. unfold CallNear. auto with emit. Qed.
#[local] Hint Resolve Appends_MovRegImm32 Appends_MovRegImm64
  Appends_PushImm32 Appends_PushImm8 Appends_CallNear : emit.

Lemma Appends_MoveArgIntoReg dstReg arg : Appends (MoveArgIntoReg dstReg arg).
Proof.
  unfold MoveArgIntoReg.
  destruct (Reg_geb dstReg R8 && Reg_leb dstReg R15); [auto with emit|].
  destruct (type arg); auto with emit.
Qed.

Lemma Appends_PushArg arg : Appends (PushArg arg).
Proof. unfold PushArg, PushImm16. destruct (type arg); auto with emit. Qed.
#[local] Hint Resolve Appends_MoveArgIntoReg Appends_PushArg : emit.

Lemma WriteDWord_bytes d buf : WriteDWord d buf = buf ++ imm32 d.
Proof. rewrite Appends_WriteDWord. reflexivity. Qed.

Lemma WriteQWord_bytes q buf : WriteQWord q buf = buf ++ imm64 q.
Proof. rewrite Appends_WriteQWord. reflexivity. Qed.

(** ** The parameter register tables *)

Lemma IntParams_nth t n :
  0 <= n < g_amd64IntParamsCount t ->
  let r := nth (Z.to_nat n) (g_amd64IntParams t) R10 in
  In r (g_amd64IntParams t) /\ Is64Reg r = true /\ IsFltReg r = false.
Proof.
  intros H r. subst r. split.
  - apply nth_In. unfold g_amd64IntParamsCount in H. lia.
  - remember (Z.to_nat n) as k eqn:Hk.
    assert (Hlt : (k < length (g_amd64IntParams t))%nat)
      by (unfold g_amd64IntParamsCount in H; lia).
    clear Hk H.
    destruct t; cbn in Hlt;
      do 8 (try (destruct k as [|k]; [split; reflexivity | ])); lia.
Qed.

Lemma FltParams_nth t n :
  0 <= n < g_amd64FltParamsCount t ->
  let r := nth (Z.to_nat n) (g_amd64FltParams t) R10 in
  In r (g_amd64FltParams t) /\ Is64Reg r = false /\ IsFltReg r = true.
Proof.
  intros H r. subst r. split.
  - apply nth_In. unfold g_amd64FltParamsCount in H. lia.
  - remember (Z.to_nat n) as k eqn:Hk.
    assert (Hlt : (k < length (g_amd64FltParams t))%nat)
      by (unfold g_amd64FltParamsCount in H; lia).
    clear Hk H.
    destruct t; cbn in Hlt;
      do 8 (try (destruct k as [|k]; [split; reflexivity | ])); lia.
Qed.

(** ** The register-assignment loop *)

Lemma int_assigned_snoc l i r :
  int_assigned (l ++ [(i, r)]) =
  int_assigned l + (if Is64Reg r then 1 else 0).
Proof.
  unfold int_assigned. rewrite filter_app, length_app. cbn.
  destruct (Is64Reg r); cbn; lia.
Qed.

Lemma flt_assigned_snoc l i r :
  flt_assigned (l ++ [(i, r)]) =
  flt_assigned l + (if IsFltReg r then 1 else 0).
Proof.
  unfold flt_assigned. rewrite filter_app, length_app. cbn.
  destruct (IsFltReg r); cbn; lia.
Qed.

Lemma RegPass_init_ok t buf : RegPass_ok t (RegPass_init buf).
Proof. destruct t; split; cbn; try reflexivity; lia. Qed.

(** One iteration of the loop: [break] when the cursor of the argument is
    exhausted, otherwise assign and go on. *)
Lemma RegisterPass_cons t arg rest i st :
  RegisterPass t (arg :: rest) i st =
  if cursor_exhausted t st arg then st
  else RegisterPass t rest (i + 1) (AssignStep t arg i st).
Proof.
  cbn [RegisterPass]. unfold cursor_exhausted, AssignStep, next_reg.
  destruct (IsFloat (type arg)); cbn [andb negb];
    rewrite Z.leb_antisym;
    match goal with |- context [?a <? ?b] => destruct (a <? b) end;
    reflexivity.
Qed.

Lemma next_reg_spec t st arg :
  RegPass_ok t st -> cursor_exhausted t st arg = false ->
  In (next_reg t st arg) (params_of t arg) /\
  Is64Reg (next_reg t st arg) = negb (IsFloat (type arg)) /\
  IsFltReg (next_reg t st arg) = IsFloat (type arg).
Proof.
  intros [Hi Hf _ _]. unfold cursor_exhausted, next_reg, params_of.
  destruct (IsFloat (type arg)); intros Hex; apply Z.leb_gt in Hex.
  - destruct (FltParams_nth t (numFltRegs st)) as (? & ? & ?); [lia|]. auto.
  - destruct (IntParams_nth t (numIntRegs st)) as (? & ? & ?); [lia|]. auto.
Qed.

Lemma AssignStep_ok t arg i st :
  RegPass_ok t st -> cursor_exhausted t st arg = false ->
  RegPass_ok t (AssignStep t arg i st).
Proof.
  intros Hok Hex.
  destruct (next_reg_spec t st arg Hok Hex) as (_ & H64 & Hflt).
  destruct Hok as [Hi Hf Hia Hfa].
  unfold cursor_exhausted in Hex. unfold AssignStep.
  split; cbn [numIntRegs numFltRegs assigned];
    rewrite ?int_assigned_snoc, ?flt_assigned_snoc, ?H64, ?Hflt;
    destruct (IsFloat (type arg)); cbn [negb];
    apply Z.leb_gt in Hex; lia.
Qed.

Lemma RegisterPass_ok t args :
  forall i st, RegPass_ok t st -> RegPass_ok t (RegisterPass t args i st).
Proof.
  induction args as [|arg rest IH]; intros i st Hok; [exact Hok|].
  rewrite RegisterPass_cons.
  destruct (cursor_exhausted t st arg) eqn:Hex; [exact Hok|].
  apply IH, AssignStep_ok; assumption.
Qed.

Lemma indices_from_S i k :
  indices_from i (S k) = i :: indices_from (i + 1) k.
Proof.
  unfold indices_from. cbn [seq map]. f_equal; [lia|].
  rewrite <- seq_shift, map_map. apply map_ext. intros; lia.
Qed.

Lemma indices_from_In i k j :
  In j (indices_from i k) -> i <= j < i + Z.of_nat k.
Proof.
  unfold indices_from. rewrite in_map_iff. intros (x & Hx & Hin).
  apply in_seq in Hin. lia.
Qed.

Lemma Last_before_AssignStep t arg i st :
  0 <= i -> Last_before i st -> Last_before (i + 1) (AssignStep t arg i st).
Proof.
  intros Hi [HI HF]. unfold Last_before, AssignStep; cbn [lastInt lastFlt].
  destruct (IsFloat (type arg)); split; lia.
Qed.

Lemma Last_before_mono i j st :
  i <= j -> Last_before i st -> Last_before j st.
Proof. intros Hij [HI HF]. split; lia. Qed.

(** The loop hands registers to a prefix of the arguments it is run on, each
    from the table of its class, and stops at the first argument whose cursor
    is exhausted; [lastInt] and [lastFlt] end up below the end of that
    prefix, one of them on its last argument. *)
Lemma RegisterPass_prefix t args :
  forall i st, RegPass_ok t st -> 0 <= i -> Last_before i st ->
  exists (k : nat) (new : list (Z * Reg)), PassResult t args i st k new.
Proof.
  induction args as [|arg rest IH]; intros i st Hok Hi Hlast.
  - exists 0%nat, []. split; cbn; rewrite ?app_nil_r, ?Z.add_0_r;
      try easy; lia.
  - rewrite <- (Z.add_0_r i) in Hlast.
    destruct (cursor_exhausted t st arg) eqn:Hex.
    + exists 0%nat, [].
      split; rewrite ?RegisterPass_cons, ?Hex, ?app_nil_r;
        cbn [length nth map]; try easy; lia.
    + destruct (next_reg_spec t st arg Hok Hex) as (Hreg & _ & _).
      rewrite Z.add_0_r in Hlast.
      destruct (IH (i + 1) _ (AssignStep_ok t arg i st Hok Hex)
                  ltac:(lia) (Last_before_AssignStep t arg i st Hi Hlast))
        as (k & new & [Hk Has Hidx Hin Hstop Hnone Hsome Hbefore]).
      exists (S k), ((i, next_reg t st arg) :: new).
      split; rewrite ?RegisterPass_cons, ?Hex.
      * cbn; lia.
      * rewrite Has; cbn; now rewrite <- app_assoc.
      * cbn [map fst]; rewrite indices_from_S; now f_equal.
      * intros j r [Heq|Hj].
        -- inversion Heq; subst j r. replace (i - i) with 0 by lia.
           exact Hreg.
        -- assert (Hji : In j (indices_from (i + 1) k)).
           { rewrite <- Hidx. apply (in_map fst _ _ Hj). }
           apply indices_from_In in Hji.
           replace (Z.to_nat (j - i)) with (S (Z.to_nat (j - (i + 1)))) by lia.
           apply Hin, Hj.
      * intros Hlen. cbn [nth]. apply Hstop. cbn in Hlen. lia.
      * discriminate.
      * intros _. destruct k as [|k'].
        -- destruct (Hnone eq_refl) as [HI HF]. rewrite HI, HF.
           cbn [Nat.sub nth]. unfold AssignStep; cbn [lastInt lastFlt].
           destruct (IsFloat (type arg)); lia.
        -- specialize (Hsome ltac:(lia)).
           replace (S (S k') - 1)%nat with (S k') by lia.
           replace (S k' - 1)%nat with k' in Hsome by lia.
           cbn [nth].
           destruct (IsFloat (type (nth k' rest dummy_arg))); lia.
      * replace (i + Z.of_nat (S k)) with (i + 1 + Z.of_nat k) by lia.
        exact Hbefore.
Qed.

Lemma Last_before_init buf : Last_before 0 (RegPass_init buf).
Proof. split; left; reflexivity. Qed.

(** ** The claims about the register-assignment pass *)

(** C7: for every argument list and either register table, the number of
    arguments that [WriteFuncCall] assigns to integer registers never exceeds
    the number of integer parameter registers, and the number assigned to
    floating-point registers never exceeds the number of floating-point
    parameter registers; the two counters of the loop are exactly these
    numbers. *)
Theorem C7_assigned_registers_within_tables : forall t args buf,
  let st := RegisterPass t args 0 (RegPass_init buf) in
  int_assigned (assigned st) = numIntRegs st /\
  flt_assigned (assigned st) = numFltRegs st /\
  numIntRegs st <= g_amd64IntParamsCount t /\
  numFltRegs st <= g_amd64FltParamsCount t.
Proof.
  intros t args buf st.
  destruct (RegisterPass_ok t args 0 _ (RegPass_init_ok t buf))
    as [Hi Hf Hia Hfa].
  fold st in Hi, Hf, Hia, Hfa. repeat split; try assumption; lia.
Qed.

(** C4, counterexample: nine [Float] arguments followed by a [DWord] under
    the System V tables.  The ninth float finds the float cursor exhausted
    and the loop breaks; the [DWord] behind it gets no register although no
    integer register has been handed out. *)
Lemma C4_later_argument_loses_its_register :
  ~ classified_independently SystemV (repeat (FL 1) 9 ++ [DW 5]).
Proof.
  intros H. specialize (H 9%nat).
  destruct H as [_ H]; [cbn; lia|].
  destruct H as [r Hr]; [reflexivity|].
  cbn in Hr.
  repeat (destruct Hr as [Hr|Hr]; [discriminate Hr|]). exact Hr.
Qed.

(** C4, as amended: the pass walks the arguments once from left to right,
    each [Float]/[Double] argument consulting the float cursor and every
    other argument the integer cursor, and it stops at the first argument
    whose cursor is exhausted: the [k] arguments before that one all receive
    a register of their own class's table, that argument and all later ones
    receive none. *)
Theorem C4_register_pass_stops_at_first_exhausted : forall t args,
  exists k : nat,
    (k <= length args)%nat /\
    map fst (RegisterAssignment t args) = indices_from 0 k /\
    (forall j r, In (j, r) (RegisterAssignment t args) ->
       In r (params_of t (nth (Z.to_nat j) args dummy_arg))) /\
    ((k < length args)%nat ->
       cursor_exhausted t (RegisterPass t args 0 (RegPass_init []))
         (nth k args dummy_arg) = true).
Proof.
  intros t args.
  destruct (RegisterPass_prefix t args 0 _ (RegPass_init_ok t [])
              (Z.le_refl 0) (Last_before_init []))
    as (k & new & [Hk Has Hidx Hin Hstop _ _ _]).
  cbn [RegPass_init assigned app] in Has.
  exists k. unfold RegisterAssignment. rewrite Has.
  split; [exact Hk|]. split; [exact Hidx|]. split; [|exact Hstop].
  intros j r Hj. specialize (Hin j r Hj).
  now replace (j - 0) with j in Hin by lia.
Qed.

(** C5, counterexample: the claim asks for an argument list on which two
    calling-convention selections give different code.  There is none:
    [WriteFuncCall] never reads [conv]. *)
Lemma C5_convention_argument_is_ignored :
  ~ exists t args addr far c1 c2,
      WriteFuncCall t args addr c1 far [] <> WriteFuncCall t args addr c2 far [].
Proof.
  intros (t & args & addr & far & c1 & c2 & H). apply H. reflexivity.
Qed.

(** C5, as amended: the register table is selected by the platform the
    assembler is compiled for, not by the [conv] argument.  For one platform
    the emitted code is the same under every calling-convention selection;
    four integer arguments are assigned to [RCX], [RDX], [R8], [R9] in the
    Windows build and to [RDI], [RSI], [RDX], [RCX] in the others. *)
Theorem C5_register_table_selected_by_platform :
  forall t args addr far c1 c2 buf (a b c d : Arg),
  IsFloat (type a) = false -> IsFloat (type b) = false ->
  IsFloat (type c) = false -> IsFloat (type d) = false ->
  WriteFuncCall t args addr c1 far buf
    = WriteFuncCall t args addr c2 far buf /\
  map snd (RegisterAssignment Win32 [a; b; c; d]) = [RCX; RDX; R8; R9] /\
  map snd (RegisterAssignment SystemV [a; b; c; d]) = [RDI; RSI; RDX; RCX].
Proof.
  intros t args addr far c1 c2 buf a b c d Ha Hb Hc Hd.
  split; [reflexivity|].
  unfold RegisterAssignment.
  split; cbn [RegisterPass]; rewrite Ha; cbn; rewrite Hb; cbn;
    rewrite Hc; cbn; rewrite Hd; reflexivity.
Qed.

(** The theorem on a three-argument call and on four [DWord] arguments. *)
Lemma C5_register_table_selected_by_platform_witness :
  WriteFuncCall SystemV [DW 1; QW 2; FL 3] 0 CDecl false []
    = WriteFuncCall SystemV [DW 1; QW 2; FL 3] 0 StdCall false [] /\
  map snd (RegisterAssignment Win32 [DW 1; DW 2; DW 3; DW 4])
    = [RCX; RDX; R8; R9] /\
  map snd (RegisterAssignment SystemV [DW 1; DW 2; DW 3; DW 4])
    = [RDI; RSI; RDX; RCX].
Proof.
  apply (C5_register_table_selected_by_platform
           SystemV [DW 1; QW 2; FL 3] 0 false CDecl StdCall []
           (DW 1) (DW 2) (DW 3) (DW 4));
    reflexivity.
Defined.

(** ** The claims about unsupported requests *)


(** C8, counterexample: a call without arguments, requested as a far call.
    The build is not rejected; the code is that of the near call, a load of
    the address into [RAX] and [FF D0], the near indirect call through
    [RAX]. *)
Lemma C8_far_call_request_emits_near_call :
  Build SystemV [] 0 CDecl true <> Rejected /\
  Build SystemV [] 0 CDecl true = Build SystemV [] 0 CDecl false /\
  WriteFuncCall SystemV [] 0 CDecl true []
    = [0x48; 0xB8; 0; 0; 0; 0; 0; 0; 0; 0; 0xFF; 0xD0].
Proof. split; [discriminate|split; reflexivity]. Qed.

(** C8, as amended: [WriteFuncCall] does not look at the far-call flag.  With
    the flag set it emits the same bytes as without it, ending in the near
    indirect call [FF D0] through [RAX], and the build is not rejected. *)
Theorem C8_far_call_flag_is_ignored : forall t args addr conv buf,
  WriteFuncCall t args addr conv true buf
    = WriteFuncCall t args addr conv false buf /\
  (exists pre, WriteFuncCall t args addr conv true buf = pre ++ [0xFF; 0xD0]) /\
  Build t args addr conv true = Build t args addr conv false /\
  Build t args addr conv true <> Rejected.
Proof.
  intros t args addr conv buf.
  split; [reflexivity|]. split; [|split; [reflexivity|discriminate]].
  unfold WriteFuncCall.
  set (b := StackPass _ _ _ _ _ _ _).
  rewrite (Appends_seq _ _ (Appends_MovRegImm64 RAX addr) (Appends_CallNear RAX)).
  rewrite seq_emit_nil by auto with emit.
  exists (b ++ MovRegImm64 RAX addr []).
  rewrite <- app_assoc. reflexivity.
Qed.

(** ** The register-extension prefix *)

(** C6, counterexample: [R8] requires the extended encoding, yet [PushReg],
    [PopReg], [MovRegImm32] and [CallNear] emit their opcode byte first and no
    prefix.  The prefix of [MovReg] and of [MovMemReg] follows one of their
    two registers only: with [R8] as the source of [MovReg], or as the base
    of [MovMemReg], the prefix is [48], without a register-extension bit. *)
Lemma C6_no_prefix_for_extended_register :
  IsExtReg R8 = true /\
  PushReg R8 [] = [0x50] /\
  PopReg R8 [] = [0x58] /\
  MovRegImm32 R8 0 [] = [0xB8; 0; 0; 0; 0] /\
  CallNear R8 [] = [0xFF; 0xD0] /\
  begins_with_REX (PushReg R8 []) = false /\
  begins_with_REX (PopReg R8 []) = false /\
  begins_with_REX (MovRegImm32 R8 0 []) = false /\
  begins_with_REX (CallNear R8 []) = false /\
  MovReg RAX R8 [] = [0x48; 0x89; 0xC0] /\
  MovMemReg R8 RAX 0 [] = [0x48; 0x89; 0x00].
Proof. repeat split; reflexivity. Qed.

(** An opcode byte with bit 4 or bit 7 set is no REX prefix, whatever is
    or-ed into it: the opcodes [50], [58], [B8] of [PushReg], [PopReg] and
    [MovRegImm32] stay opcodes under every register encoding. *)
Lemma opcode_or_not_REX op x :
  Z.testbit op 4 = true \/ Z.testbit op 7 = true ->
  is_REX (u8 (Z.lor op x)) = false.
Proof.
  intros Hop. unfold is_REX, u8, REX_Prefix. apply Z.eqb_neq. intros H.
  destruct Hop as [Hop|Hop].
  - apply (f_equal (fun z => Z.testbit z 4)) in H.
    rewrite !Z.land_spec, Z.lor_spec, Hop in H. discriminate H.
  - apply (f_equal (fun z => Z.testbit z 7)) in H.
    rewrite !Z.land_spec, Z.lor_spec, Hop in H. discriminate H.
Qed.

Lemma WriteREXOpt_bytes reg :
  WriteREXOpt reg [] =
  if Is64Reg reg then [if IsExtReg reg then 0x49 else 0x48] else [].
Proof. destruct reg; reflexivity. Qed.

Lemma Appends_WriteDisp offset : Appends (WriteDisp offset).
Proof.
  unfold WriteDisp. destruct (0 <? offset); [|auto with emit].
  destruct (UCHAR_MAX <? offset); auto with emit.
Qed.
#[local] Hint Resolve Appends_WriteDisp : emit.

Lemma WriteByte_seq_nil b e :
  Appends e -> (WriteByte b ;; e) [] = u8 b :: e [].
Proof. intros He. rewrite seq_emit_nil by assumption. reflexivity. Qed.

Lemma prefixed_code reg b (e : Emit) :
  Appends e -> Is64Reg reg = true ->
  (WriteREXOpt reg ;; WriteByte b ;; e) []
  = expected_REX reg :: u8 b :: e [].
Proof.
  intros He H64. rewrite seq_emit_nil by auto with emit.
  rewrite WriteREXOpt_bytes, H64, WriteByte_seq_nil by assumption.
  reflexivity.
Qed.

(** C6, as amended: [MovRegImm64], [AddImm32], [SubImm32], [DivReg] and
    [MovMemImm32] on a 64-bit register, and [MovReg] on a 64-bit destination
    with a source among the base registers, begin with exactly one prefix
    byte and their opcode behind it: the prefix is [49], [REX.W] with the
    register-extension bit [REX.B], when the register is one of [R8] ..
    [R15], and [48], [REX.W] alone, when it is one of the base eight.
    [PushReg], [PopReg], [MovRegImm32] and [CallNear] emit no prefix byte for
    a register that does not require the extended encoding. *)
Theorem C6_extension_prefix : forall reg other imm offset,
  (Is64Reg reg = true ->
   (exists rest, MovRegImm64 reg imm []
      = expected_REX reg :: u8 (Z.lor Opcode_MovRegImm (RegByte reg)) :: rest) /\
   (exists rest, AddImm32 reg imm []
      = expected_REX reg :: Opcode_AddImm :: rest) /\
   (exists rest, SubImm32 reg imm []
      = expected_REX reg :: Opcode_SubImm :: rest) /\
   (exists rest, DivReg reg []
      = expected_REX reg :: Opcode_DivReg :: rest) /\
   (exists rest, MovMemImm32 reg imm offset []
      = expected_REX reg :: Opcode_MovMemImm :: rest) /\
   (IsExtReg other = false ->
    exists rest, MovReg reg other []
      = expected_REX reg :: Opcode_MovMemReg :: rest)) /\
  (IsExtReg reg = false ->
   begins_with_REX (PushReg reg []) = false /\
   begins_with_REX (PopReg reg []) = false /\
   begins_with_REX (MovRegImm32 reg imm []) = false /\
   begins_with_REX (CallNear reg []) = false).
Proof.
  intros reg other imm offset. split.
  - intros H64.
    split; [unfold MovRegImm64; rewrite prefixed_code by auto with emit;
            eexists; reflexivity|].
    split; [unfold AddImm32; rewrite prefixed_code by auto with emit;
            eexists; reflexivity|].
    split; [unfold SubImm32; rewrite prefixed_code by auto with emit;
            eexists; reflexivity|].
    split; [unfold DivReg; rewrite prefixed_code by auto with emit;
            eexists; reflexivity|].
    split; [unfold MovMemImm32; rewrite prefixed_code by auto 10 with emit;
            eexists; reflexivity|].
    intros _. unfold MovReg. rewrite prefixed_code by auto with emit.
    eexists; reflexivity.
  - intros _.
    split; [apply opcode_or_not_REX; left; reflexivity|].
    split; [apply opcode_or_not_REX; left; reflexivity|].
    split; [unfold MovRegImm32; rewrite WriteByte_seq_nil by auto with emit;
            apply opcode_or_not_REX; right; reflexivity|].
    reflexivity.
Qed.

(** The theorem at [R9], which takes the prefix [49], and at [RBP], which
    takes [48] and no prefix in a push. *)
Lemma C6_extension_prefix_witness :
  (exists rest, MovRegImm64 R9 7 [] = 0x49 :: 0xB9 :: rest) /\
  (exists rest, MovReg RBP RSP [] = 0x48 :: 0x89 :: rest) /\
  begins_with_REX (PushReg RBP []) = false.
Proof.
  destruct (C6_extension_prefix R9 RSP 7 0) as [H9 _].
  destruct (H9 eq_refl) as (Hmov & _).
  destruct (C6_extension_prefix RBP RSP 7 0) as [Hbp Hpush].
  destruct (Hbp eq_refl) as (_ & _ & _ & _ & _ & Hreg).
  destruct (Hpush eq_refl) as (Hp & _).
  split; [exact Hmov|]. split; [exact (Hreg eq_refl)|exact Hp].
Defined.

(** ** Pushes *)

Lemma PushImm8_Instruction b : Instruction (PushImm8 b []) (-8).
Proof. intros rest. reflexivity. Qed.

Lemma PushImm32_Instruction d : Instruction (PushImm32 d []) (-8).
Proof. intros rest. reflexivity. Qed.

(** C9: a [Byte] or [Word] argument that the stack pass pushes is pushed by
    one instruction that moves the stack pointer by the natural width of
    eight bytes and carries no operand-size prefix: its stack slot has the
    natural width, and no push of one or two bytes is used.  A [Word] is
    widened to a 32-bit immediate before it is pushed ([68 id]); a [Byte] is
    pushed by [6A ib], whose immediate the processor extends to the natural
    width. *)
Theorem C9_byte_and_word_pushed_at_natural_width : forall arg buf,
  type arg = Byte \/ type arg = Word ->
  exists ins,
    PushArg arg buf = buf ++ ins /\
    Instruction ins (-8) /\
    hd 0 ins <> OperandSize_Prefix /\
    (type arg = Word -> ins = Opcode_PushImm :: imm32 (i16 (value arg))) /\
    (type arg = Byte -> ins = [Opcode_PushImm8; u8 (i8 (value arg))]).
Proof.
  intros arg buf Hty. exists (PushArg arg []).
  split; [apply Appends_PushArg|].
  unfold PushArg, PushImm16.
  destruct Hty as [Hty|Hty]; rewrite Hty.
  - split; [apply PushImm8_Instruction|].
    split; [discriminate|]. split; [discriminate|reflexivity].
  - split; [apply PushImm32_Instruction|].
    split; [discriminate|]. split; [reflexivity|discriminate].
Qed.

(** The theorem on the [Word] argument [0x1234]. *)
Lemma C9_byte_and_word_pushed_at_natural_width_witness :
  exists ins,
    PushArg (mkArg Word 0x1234) [] = [] ++ ins /\
    Instruction ins (-8) /\
    hd 0 ins <> OperandSize_Prefix /\
    (type (mkArg Word 0x1234) = Word ->
     ins = Opcode_PushImm :: imm32 (i16 (value (mkArg Word 0x1234)))) /\
    (type (mkArg Word 0x1234) = Byte ->
     ins = [Opcode_PushImm8; u8 (i8 (value (mkArg Word 0x1234)))]).
Proof.
  apply (C9_byte_and_word_pushed_at_natural_width (mkArg Word 0x1234) []).
  right. reflexivity.
Defined.

(** ** Displacements *)

Lemma u8_small z : 0 <= z <= 255 -> u8 z = z.
Proof.
  intros H. unfold u8. change 0xFF with (Z.ones 8).
  rewrite Z.land_ones by lia. apply Z.mod_small. lia.
Qed.

Lemma u32_small z : 0 <= z < 2 ^ 32 -> u32 z = z.
Proof.
  intros H. unfold u32. change 0xFFFFFFFF with (Z.ones 32).
  rewrite Z.land_ones by lia. apply Z.mod_small. lia.
Qed.

(** The displacement field as the code sizes it: none for a zero offset, one
    byte up to [UCHAR_MAX], four bytes above. *)
Lemma WriteDisp_length offset :
  0 <= offset < 2 ^ 32 ->
  length (WriteDisp (u32 offset) []) =
  if offset =? 0 then 0%nat
  else if offset <=? 255 then 1%nat else 4%nat.
Proof.
  intros H. rewrite u32_small by assumption. unfold WriteDisp, UCHAR_MAX.
  destruct (Z.ltb_spec 0 offset), (Z.eqb_spec offset 0); try lia;
    [|reflexivity].
  destruct (Z.ltb_spec 255 offset), (Z.leb_spec offset 255); try lia;
    reflexivity.
Qed.

(** C10: the offsets from 128 to 255 do not fit a signed byte, and both
    primitives encode them in the one-byte displacement form: mode bits
    [Operand_Mod01] and a single displacement byte. *)
Theorem C10_offsets_up_to_255_use_one_byte_form :
  forall reg other dword offset,
  128 <= offset <= 255 ->
  fits_signed_byte offset = false /\
  MovMemImm32 reg dword offset []
    = WriteREXOpt reg []
      ++ [Opcode_MovMemImm; u8 (Z.lor Operand_Mod01 (RegByte reg)); offset]
      ++ imm32 dword /\
  MovMemReg other reg offset []
    = WriteREXOpt reg []
      ++ [Opcode_MovMemReg;
          u8 (Z.lor (Z.lor Operand_Mod01 (Z.shiftl (RegByte reg) 3))
                    (RegByte other));
          offset].
Proof.
  intros reg other dword offset H.
  assert (H32 : u32 offset = offset) by (apply u32_small; lia).
  assert (H8 : u8 offset = offset) by (apply u8_small; lia).
  assert (Hmode : disp_mode offset = Operand_Mod01).
  { unfold disp_mode, UCHAR_MAX.
    destruct (Z.ltb_spec 0 offset); [|lia].
    destruct (Z.ltb_spec 255 offset); [lia|reflexivity]. }
  assert (Hdisp : WriteDisp offset [] = [offset]).
  { unfold WriteDisp, UCHAR_MAX.
    destruct (Z.ltb_spec 0 offset); [|lia].
    destruct (Z.ltb_spec 255 offset); [lia|].
    unfold WriteByte; cbn. now rewrite !H8. }
  split.
  { unfold fits_signed_byte.
    destruct (Z.leb_spec offset 127); [lia|]. apply andb_false_r. }
  split.
  - unfold MovMemImm32. rewrite H32, Hmode.
    rewrite seq_emit_nil by auto 10 with emit. f_equal.
    rewrite WriteByte_seq_nil by auto 10 with emit.
    rewrite WriteByte_seq_nil by auto 10 with emit.
    rewrite seq_emit_nil by auto 10 with emit.
    rewrite Hdisp, WriteDWord_bytes. reflexivity.
  - unfold MovMemReg. rewrite H32, Hmode.
    rewrite seq_emit_nil by auto 10 with emit. f_equal.
    rewrite WriteByte_seq_nil by auto 10 with emit.
    rewrite WriteByte_seq_nil by auto 10 with emit.
    rewrite Hdisp. reflexivity.
Qed.

(** The theorem at the offset 200: the displacement is the single byte
    [C8]. *)
Lemma C10_offsets_up_to_255_use_one_byte_form_witness :
  fits_signed_byte 200 = false /\
  MovMemImm32 RBX 0x999 200 []
    = [0x48; 0xC7; 0x43; 0xC8; 0x99; 0x09; 0x00; 0x00] /\
  MovMemReg RBP RBX 200 [] = [0x48; 0x89; 0x5D; 0xC8].
Proof.
  apply (C10_offsets_up_to_255_use_one_byte_form RBX RBP 0x999 200). lia.
Defined.

(** ** The stack pass *)

Lemma firstn_S_snoc (l : list Arg) n :
  (n < length l)%nat -> firstn (S n) l = firstn n l ++ [nth n l dummy_arg].
Proof.
  revert n. induction l as [|a l IH]; intros n Hn; [cbn in Hn; lia|].
  destruct n as [|n]; [reflexivity|].
  cbn [firstn nth app]. cbn in Hn. rewrite <- IH by lia. reflexivity.
Qed.

Lemma spill_code_snoc l a : spill_code (l ++ [a]) = spill_code l ++ PushArg a [].
Proof.
  unfold spill_code. rewrite map_app, concat_app. cbn. now rewrite app_nil_r.
Qed.

(** The second loop, started with [n] iterations left, pushes the arguments
    [n-1], [n-2], ..., [k] in this order and breaks at argument [k-1], when
    [lastInt] and [lastFlt] are as the first loop leaves them after handing
    registers to the first [k] arguments. *)
Lemma StackPass_spec args (k : nat) lastI lastF :
  Z.of_nat (length args) < SIZE_MAX ->
  (lastI = SIZE_MAX \/ 0 <= lastI < Z.of_nat k) ->
  (lastF = SIZE_MAX \/ 0 <= lastF < Z.of_nat k) ->
  ((0 < k)%nat ->
     if IsFloat (type (nth (k - 1) args dummy_arg))
     then lastF = Z.of_nat k - 1 else lastI = Z.of_nat k - 1) ->
  forall n buf, (k <= n <= length args)%nat ->
    StackPass n args (Z.of_nat (length args)) (Z.of_nat (length args) - Z.of_nat n)
      lastI lastF buf
    = buf ++ spill_code (rev (skipn k (firstn n args))).
Proof.
  intros Hnum HI HF Hlast.
  induction n as [|n IH]; intros buf Hn.
  - cbn. rewrite skipn_nil. cbn. now rewrite app_nil_r.
  - cbn [StackPass].
    replace (Z.of_nat (length args) - (Z.of_nat (length args) - Z.of_nat (S n)) - 1)
      with (Z.of_nat n) by lia.
    rewrite Nat2Z.id. fold dummy_arg.
    destruct (Nat.eq_dec k (S n)) as [Heq|Hne].
    + (* the break *)
      specialize (Hlast ltac:(lia)).
      replace (k - 1)%nat with n in Hlast by lia.
      rewrite skipn_all2 by (rewrite length_firstn; lia).
      cbn. rewrite app_nil_r.
      destruct (IsFloat (type (nth n args dummy_arg))); cbn [andb negb orb].
      * replace (Z.of_nat n =? lastF) with true
          by (symmetry; apply Z.eqb_eq; lia). reflexivity.
      * replace (Z.of_nat n =? lastI) with true
          by (symmetry; apply Z.eqb_eq; lia). reflexivity.
    + (* a push *)
      assert (HnI : (Z.of_nat n =? lastI) = false) by (apply Z.eqb_neq; lia).
      assert (HnF : (Z.of_nat n =? lastF) = false) by (apply Z.eqb_neq; lia).
      rewrite HnI, HnF, !andb_false_r. cbn [orb].
      replace (Z.of_nat (length args) - Z.of_nat (S n) + 1)
        with (Z.of_nat (length args) - Z.of_nat n) by lia.
      rewrite IH by lia.
      rewrite (Appends_PushArg _ buf), <- app_assoc. f_equal.
      rewrite firstn_S_snoc by lia.
      rewrite skipn_app, length_firstn.
      replace (k - Nat.min n (length args))%nat with 0%nat by lia.
      cbn [skipn]. rewrite rev_app_distr. cbn [rev app].
      unfold spill_code. cbn [map concat]. reflexivity.
Qed.

(** ** The register pass and the code buffer *)

Lemma with_assembly_idem st a b :
  with_assembly (with_assembly st a) b = with_assembly st b.
Proof. reflexivity. Qed.

Lemma AssignStep_with_assembly t arg i st buf :
  AssignStep t arg i (with_assembly st buf)
  = with_assembly (AssignStep t arg i (with_assembly st []))
      (buf ++ MoveArgIntoReg (next_reg t st arg) arg []).
Proof.
  unfold AssignStep, with_assembly; cbn. f_equal.
  apply Appends_MoveArgIntoReg.
Qed.

(** Apart from the bytes it appends, the first loop does not depend on the
    code buffer. *)
Lemma RegisterPass_with_assembly t args :
  forall i st buf,
  RegisterPass t args i (with_assembly st buf)
  = with_assembly (RegisterPass t args i (with_assembly st []))
      (buf ++ assembly (RegisterPass t args i (with_assembly st []))).
Proof.
  induction args as [|arg rest IH]; intros i st buf.
  - cbn. now rewrite app_nil_r.
  - rewrite !RegisterPass_cons.
    change (cursor_exhausted t (with_assembly st buf) arg)
      with (cursor_exhausted t st arg).
    change (cursor_exhausted t (with_assembly st []) arg)
      with (cursor_exhausted t st arg).
    destruct (cursor_exhausted t st arg).
    + cbn. now rewrite app_nil_r.
    + rewrite AssignStep_with_assembly, IH.
      rewrite (AssignStep_with_assembly t arg i st []).
      rewrite (IH _ _ ([] ++ _)).
      rewrite !with_assembly_idem. cbn [with_assembly assembly app].
      now rewrite app_assoc.
Qed.

Lemma RegPass_init_with_assembly buf :
  RegPass_init buf = with_assembly (RegPass_init []) buf.
Proof. reflexivity. Qed.

(** The code of [WriteFuncCall]: the register loads, the pushes of the
    arguments without a register, last argument first, and the call. *)
Lemma WriteFuncCall_code t args addr conv far buf :
  Z.of_nat (length args) < SIZE_MAX ->
  WriteFuncCall t args addr conv far buf
  = buf ++ RegisterLoads t args
        ++ spill_code (rev (Unassigned t args))
        ++ MovRegImm64 RAX addr [] ++ CallNear RAX [].
Proof.
  intros Hnum. unfold WriteFuncCall, RegisterLoads, Unassigned, RegisterAssignment.
  rewrite RegPass_init_with_assembly, RegisterPass_with_assembly.
  change (with_assembly (RegPass_init []) []) with (RegPass_init []).
  set (st := RegisterPass t args 0 (RegPass_init [])).
  cbn [with_assembly lastInt lastFlt assembly].
  destruct (RegisterPass_prefix t args 0 _ (RegPass_init_ok t [])
              (Z.le_refl 0) (Last_before_init []))
    as (k & new & [Hk Has Hidx Hin Hstop Hnone Hsome Hbefore]).
  fold st in Has, Hnone, Hsome, Hbefore.
  assert (Hlen : length (assigned st) = k).
  { rewrite Has. cbn. rewrite <- (length_map fst), Hidx.
    unfold indices_from. now rewrite length_map, length_seq. }
  rewrite Hlen.
  destruct Hbefore as [HI HF]. rewrite Z.add_0_l in HI, HF.
  pose proof (StackPass_spec args k (lastInt st) (lastFlt st) Hnum HI HF) as Hsp.
  specialize (Hsp ltac:(intros Hk0; specialize (Hsome Hk0);
                        rewrite Z.add_0_l in Hsome; exact Hsome)).
  specialize (Hsp (length args) (buf ++ assembly st) ltac:(lia)).
  rewrite Z.sub_diag in Hsp. rewrite Hsp, firstn_all.
  rewrite (Appends_seq _ _ (Appends_MovRegImm64 RAX addr) (Appends_CallNear RAX)).
  rewrite seq_emit_nil by auto with emit.
  now rewrite <- !app_assoc.
Qed.

(** ** Running the generated code *)

Lemma Instruction_nonempty ins d : Instruction ins d -> (1 <= length ins)%nat.
Proof.
  intros H. destruct ins; [|cbn; lia].
  specialize (H []). discriminate H.
Qed.

Lemma Straight_one ins d : Instruction ins d -> Straight ins d.
Proof.
  intros H. rewrite <- (app_nil_r ins), <- (Z.add_0_r d).
  apply Straight_cons; [assumption|constructor].
Qed.

Lemma Straight_app a d1 b d2 :
  Straight a d1 -> Straight b d2 -> Straight (a ++ b) (d1 + d2).
Proof.
  induction 1 as [|ins d code d' Hins Hcode IH]; intros Hb.
  - exact Hb.
  - rewrite <- app_assoc, <- Z.add_assoc. apply Straight_cons; auto.
Qed.

Lemma sp_at_return_S fuel :
  forall code sp r,
  sp_at_return fuel code sp = Some r -> sp_at_return (S fuel) code sp = Some r.
Proof.
  induction fuel as [|fuel IH]; intros code sp r H; [discriminate H|].
  cbn [sp_at_return] in H |- *.
  destruct (decode code) as [[[d|] rest]|]; try assumption.
  apply IH, H.
Qed.

Lemma sp_at_return_le fuel fuel' code sp r :
  (fuel <= fuel')%nat ->
  sp_at_return fuel code sp = Some r -> sp_at_return fuel' code sp = Some r.
Proof.
  induction 1 as [|m Hle IH]; intros H; [assumption|].
  apply sp_at_return_S, IH, H.
Qed.

(** Straight-line code in front of the rest moves [RSP] by its total and
    uses up at most one unit of fuel per byte. *)
Lemma sp_at_return_straight code d :
  Straight code d ->
  forall rest sp fuel r,
  sp_at_return fuel rest (sp + d) = Some r ->
  sp_at_return (length code + fuel) (code ++ rest) sp = Some r.
Proof.
  induction 1 as [|ins d code d' Hins Hcode IH]; intros rest sp fuel r H.
  - rewrite Z.add_0_r in H. exact H.
  - pose proof (Instruction_nonempty _ _ Hins) as Hlen.
    rewrite length_app, <- app_assoc.
    replace (length ins + length code + fuel)%nat
      with (S (length ins - 1 + (length code + fuel)))%nat by lia.
    cbn [sp_at_return]. rewrite (Hins (code ++ rest)).
    apply sp_at_return_le with (fuel := (length code + fuel)%nat); [lia|].
    apply IH. now rewrite <- Z.add_assoc.
Qed.

Lemma StackDisplacement_straight code d :
  Straight code d -> StackDisplacement (code ++ [Opcode_RetNear]) = Some d.
Proof.
  intros H. unfold StackDisplacement.
  apply sp_at_return_le with (fuel := (length code + 1)%nat);
    [rewrite length_app; cbn; lia|].
  apply sp_at_return_straight with (d := d); [assumption|]. reflexivity.
Qed.

Lemma MoveArgIntoReg_int_Straight t r arg :
  In r (g_amd64IntParams t) -> IsFloat (type arg) = false ->
  Straight (MoveArgIntoReg r arg []) 0.
Proof.
  intros Hin Hfl. destruct arg as [ty v].
  destruct t; cbn in Hin;
    repeat (destruct Hin as [<-|Hin]; [|]); try contradiction;
    destruct ty; try discriminate Hfl;
    apply Straight_one; intros rest; reflexivity.
Qed.

Lemma MoveArgIntoReg_flt_nil t r arg :
  In r (g_amd64FltParams t) -> IsFloat (type arg) = true ->
  MoveArgIntoReg r arg [] = [].
Proof.
  intros Hin Hfl. destruct arg as [ty v].
  destruct t; cbn in Hin;
    repeat (destruct Hin as [<-|Hin]; [|]); try contradiction;
    destruct ty; try discriminate Hfl; reflexivity.
Qed.

Lemma MoveArgIntoReg_Straight t st arg :
  RegPass_ok t st -> cursor_exhausted t st arg = false ->
  Straight (MoveArgIntoReg (next_reg t st arg) arg []) 0.
Proof.
  intros Hok Hex.
  destruct (next_reg_spec t st arg Hok Hex) as (Hin & _ & _).
  unfold params_of in Hin. destruct (IsFloat (type arg)) eqn:Hfl.
  - rewrite (MoveArgIntoReg_flt_nil t) by assumption. constructor.
  - now apply (MoveArgIntoReg_int_Straight t).
Qed.

Lemma RegPass_ok_with_assembly t st buf :
  RegPass_ok t st -> RegPass_ok t (with_assembly st buf).
Proof. intros [? ? ? ?]. now split. Qed.

(** The register loads are straight-line code that leaves [RSP] alone. *)
Lemma RegisterPass_Straight t args :
  forall i st, RegPass_ok t st ->
  Straight (assembly (RegisterPass t args i (with_assembly st []))) 0.
Proof.
  induction args as [|arg rest IH]; intros i st Hok.
  - constructor.
  - rewrite RegisterPass_cons.
    change (cursor_exhausted t (with_assembly st []) arg)
      with (cursor_exhausted t st arg).
    destruct (cursor_exhausted t st arg) eqn:Hex; [constructor|].
    rewrite AssignStep_with_assembly, RegisterPass_with_assembly.
    cbn [with_assembly assembly app].
    change 0 with (0 + 0). apply Straight_app.
    + now apply MoveArgIntoReg_Straight.
    + apply IH, AssignStep_ok; [|exact Hex].
      now apply RegPass_ok_with_assembly.
Qed.

Lemma RegisterLoads_Straight t args : Straight (RegisterLoads t args) 0.
Proof.
  unfold RegisterLoads.
  change (RegPass_init []) with (with_assembly (RegPass_init []) []).
  apply RegisterPass_Straight, RegPass_init_ok.
Qed.

Lemma PushArg_code arg :
  if is_pushed arg then Instruction (PushArg arg []) (-8)
  else PushArg arg [] = [].
Proof.
  unfold is_pushed, PushArg, PushImm16.
  destruct (type arg);
    first [apply PushImm8_Instruction | apply PushImm32_Instruction
          | reflexivity].
Qed.

(** Every emitted push moves [RSP] down by eight bytes. *)
Lemma spill_code_Straight l : Straight (spill_code l) (-8 * pushed_count l).
Proof.
  induction l as [|a l IH]; [constructor|].
  unfold spill_code, pushed_count in *. cbn [map concat filter].
  pose proof (PushArg_code a) as Ha.
  destruct (is_pushed a).
  - replace (-8 * Z.of_nat (length (a :: filter is_pushed l)))
      with (-8 + -8 * Z.of_nat (length (filter is_pushed l)))
      by (cbn [length]; lia).
    now apply Straight_cons.
  - rewrite Ha. exact IH.
Qed.

Lemma Begin_Straight : Straight (Begin []) (-40).
Proof.
  change (Begin []) with ([0x55] ++ [0x48; 0x89; 0xE5]
                          ++ [0x48; 0x81; 0xEC; 0x20; 0; 0; 0] ++ []).
  change (-40) with (-8 + (0 + (-32 + 0))).
  repeat (apply Straight_cons; [intros rest; reflexivity|]). constructor.
Qed.

Lemma End_code :
  End [] = [0x48; 0x81; 0xC4; 0x20; 0; 0; 0] ++ [0x5D] ++ [Opcode_RetNear].
Proof. reflexivity. Qed.

Lemma Appends_End : Appends End.
Proof.
  unfold End, AddImm32, PopReg, RetNear. cbn [Z.ltb Z.compare].
  auto 10 with emit.
Qed.

Lemma call_Straight addr :
  Straight (MovRegImm64 RAX addr [] ++ CallNear RAX []) 0.
Proof.
  change 0 with (0 + (0 + 0)). rewrite <- (app_nil_r (CallNear RAX [])).
  repeat (apply Straight_cons; [intros rest; reflexivity|]). constructor.
Qed.

(** The stack pointer at the return of the generated sequence: eight bytes
    down for every push of the stack pass, and nothing else. *)
Lemma GenerateCall_StackDisplacement t args addr conv far :
  Z.of_nat (length args) < SIZE_MAX ->
  StackDisplacement (GenerateCall t args addr conv far)
  = Some (-8 * pushed_count (Unassigned t args)).
Proof.
  intros Hnum. unfold GenerateCall, seq_emit.
  rewrite Appends_End, WriteFuncCall_code by assumption.
  rewrite End_code, !app_assoc.
  apply StackDisplacement_straight. rewrite <- !app_assoc.
  replace (-8 * pushed_count (Unassigned t args))
    with (-40 + (0 + (-8 * pushed_count (rev (Unassigned t args))
                      + (0 + (32 + 8))))).
  2:{ unfold pushed_count.
      assert (Hrev : forall l, length (filter is_pushed (rev l))
                               = length (filter is_pushed l)).
      { intros l. induction l as [|a l IH]; [reflexivity|].
        cbn [rev filter]. rewrite filter_app, length_app, IH. cbn.
        destruct (is_pushed a); cbn; lia. }
      rewrite Hrev. lia. }
  apply Straight_app; [apply Begin_Straight|].
  apply Straight_app; [apply RegisterLoads_Straight|].
  apply Straight_app; [apply spill_code_Straight|].
  rewrite (app_assoc (MovRegImm64 RAX addr [])).
  apply Straight_app; [apply call_Straight|].
  change (32 + 8) with (32 + (8 + 0)).
  rewrite <- (app_nil_r [0x5D]).
  repeat (apply Straight_cons; [intros rest; reflexivity|]). constructor.
Qed.

(** Without a push the prologue and the epilogue cancel. *)
Lemma GenerateCall_balanced_without_pushes t args addr conv far :
  Z.of_nat (length args) < SIZE_MAX ->
  pushed_count (Unassigned t args) = 0 ->
  StackDisplacement (GenerateCall t args addr conv far) = Some 0.
Proof.
  intros Hnum Hp. rewrite GenerateCall_StackDisplacement by assumption.
  now rewrite Hp.
Qed.

Lemma Unassigned_length t args :
  Z.of_nat (length (Unassigned t args))
  = Z.of_nat (length args) - Z.of_nat (length (RegisterAssignment t args)).
Proof.
  unfold Unassigned. rewrite length_skipn.
  destruct (RegisterPass_prefix t args 0 _ (RegPass_init_ok t [])
              (Z.le_refl 0) (Last_before_init []))
    as (k & new & [Hk Has Hidx _ _ _ _ _]).
  unfold RegisterAssignment. rewrite Has. cbn [RegPass_init assigned app].
  rewrite <- (length_map fst), Hidx. unfold indices_from.
  rewrite length_map, length_seq. lia.
Qed.

(** ** The claims about the stack *)

(** C1: at the return instruction of the generated sequence the stack pointer
    stands eight bytes below its value on entry for every push that the stack
    pass has emitted.  The epilogue takes back the [0x20] of the prologue and
    the saved frame pointer, and nothing takes back the pushes: the
    displacement is zero only when no argument is pushed. *)
Theorem C1_pushed_arguments_are_not_compensated :
  forall t args addr conv far,
  Z.of_nat (length args) < SIZE_MAX ->
  StackDisplacement (GenerateCall t args addr conv far)
  = Some (-8 * pushed_count (Unassigned t args)).
Proof. intros. now apply GenerateCall_StackDisplacement. Qed.

(** The theorem on seven [DWord] arguments under the System V tables: six
    registers, one push, and the stack pointer eight bytes down at the
    return. *)
Lemma C1_pushed_arguments_are_not_compensated_witness :
  Z.of_nat (length (repeat (DW 1) 7)) < SIZE_MAX /\
  StackDisplacement
    (GenerateCall SystemV (repeat (DW 1) 7) 0x7FFF12345678 CDecl false)
  = Some (-8).
Proof.
  split; [reflexivity|].
  exact (C1_pushed_arguments_are_not_compensated
           SystemV (repeat (DW 1) 7) 0x7FFF12345678 CDecl false eq_refl).
Defined.

(** C3: the code of [WriteFuncCall] is the register loads, then the code of
    [PushArg] for every argument without a register, last argument first and
    once each, then the call.  There are as many such arguments as the
    argument count minus the number of register-assigned arguments, but
    [PushArg] emits a push only for [Byte], [Word], [DWord] and [Float]: for
    a [QWord], [Ptr] or [Double] argument it emits nothing. *)
Theorem C3_stack_pass_drops_wide_arguments :
  forall t args addr conv far buf,
  Z.of_nat (length args) < SIZE_MAX ->
  WriteFuncCall t args addr conv far buf
    = buf ++ RegisterLoads t args
          ++ spill_code (rev (Unassigned t args))
          ++ MovRegImm64 RAX addr [] ++ CallNear RAX [] /\
  Z.of_nat (length (Unassigned t args))
    = Z.of_nat (length args) - Z.of_nat (length (RegisterAssignment t args)) /\
  Straight (spill_code (rev (Unassigned t args)))
    (-8 * pushed_count (rev (Unassigned t args))) /\
  (forall a, type a = QWord \/ type a = Ptr \/ type a = Double ->
     PushArg a [] = [] /\ is_pushed a = false) /\
  (forall a, type a = Byte \/ type a = Word \/ type a = DWord \/ type a = Float ->
     Instruction (PushArg a []) (-8) /\ is_pushed a = true).
Proof.
  intros t args addr conv far buf Hnum.
  split; [now apply WriteFuncCall_code|].
  split; [apply Unassigned_length|].
  split; [apply spill_code_Straight|].
  split; intros a Ha; pose proof (PushArg_code a) as Hc;
    unfold is_pushed in *;
    repeat (destruct Ha as [Ha|Ha]); rewrite Ha in *; now split.
Qed.

(** The theorem on seven [QWord] arguments under the System V tables: one
    argument is left without a register and the stack pass emits nothing. *)
Lemma C3_stack_pass_drops_wide_arguments_witness :
  Z.of_nat (length (repeat (QW 1) 7)) < SIZE_MAX /\
  Z.of_nat (length (repeat (QW 1) 7))
    - Z.of_nat (length (RegisterAssignment SystemV (repeat (QW 1) 7))) = 1 /\
  spill_code (rev (Unassigned SystemV (repeat (QW 1) 7))) = [] /\
  WriteFuncCall SystemV (repeat (QW 1) 7) 0x7FFF12345678 CDecl false []
    = [] ++ RegisterLoads SystemV (repeat (QW 1) 7)
         ++ []
         ++ MovRegImm64 RAX 0x7FFF12345678 [] ++ CallNear RAX [].
Proof.
  split; [reflexivity|]. split; [reflexivity|]. split; [reflexivity|].
  exact (proj1 (C3_stack_pass_drops_wide_arguments
                  SystemV (repeat (QW 1) 7) 0x7FFF12345678 CDecl false []
                  eq_refl)).
Defined.

(** * Further properties of the assembler *)

(** ** The call sequence only appends *)

Lemma Appends_StackPass n args num lastI lastF :
  forall i, Appends (StackPass n args num i lastI lastF).
Proof.
  induction n as [|n IH]; intros i buf; cbn [StackPass].
  - now rewrite app_nil_r.
  - match goal with |- context [if ?c then _ else _] => destruct c end.
    + now rewrite app_nil_r.
    + rewrite IH, (IH _ (PushArg _ [])), (Appends_PushArg _ buf).
      now rewrite app_assoc.
Qed.

Lemma Appends_WriteFuncCall t args addr conv far :
  Appends (WriteFuncCall t args addr conv far).
Proof.
  intros buf. unfold WriteFuncCall.
  rewrite RegPass_init_with_assembly, RegisterPass_with_assembly.
  change (with_assembly (RegPass_init []) []) with (RegPass_init []).
  cbn [with_assembly lastInt lastFlt assembly].
  set (st := RegisterPass t args 0 (RegPass_init [])).
  pose proof (Appends_seq _ _ (Appends_MovRegImm64 RAX addr)
                (Appends_CallNear RAX)) as Hcall.
  rewrite Hcall, Appends_StackPass.
  rewrite (Hcall (StackPass _ _ _ _ _ _ (assembly st))).
  rewrite (Appends_StackPass _ _ _ _ _ _ (assembly st)).
  now rewrite <- !app_assoc.
Qed.

Lemma Appends_Begin : Appends Begin.
Proof.
  unfold Begin, PushReg, MovReg, SubImm32. auto 10 with emit.
Qed.

(** X1: the call sequence never touches what is already in the code buffer
    and emits the same bytes wherever it starts: run on a buffer [buf],
    [WriteFuncCall], and the whole sequence of prologue, call and epilogue,
    leave [buf] in front of the bytes they emit on the empty buffer. *)
Theorem X1_call_sequence_appends : forall t args addr conv far buf,
  WriteFuncCall t args addr conv far buf
    = buf ++ WriteFuncCall t args addr conv far [] /\
  (Begin ;; WriteFuncCall t args addr conv far ;; End) buf
    = buf ++ GenerateCall t args addr conv far.
Proof.
  intros t args addr conv far buf.
  split; [apply Appends_WriteFuncCall|].
  unfold GenerateCall.
  apply (Appends_seq _ _ Appends_Begin
           (Appends_seq _ _ (Appends_WriteFuncCall t args addr conv far)
              Appends_End)).
Qed.

(** ** The registers that are handed out *)

Lemma firstn_S_snoc_gen {A} (l : list A) n d :
  (n < length l)%nat -> firstn (S n) l = firstn n l ++ [nth n l d].
Proof.
  revert n. induction l as [|a l IH]; intros n Hn; [cbn in Hn; lia|].
  destruct n as [|n]; [reflexivity|].
  cbn [firstn nth app]. cbn in Hn. rewrite <- IH by lia. reflexivity.
Qed.

Lemma RegPass_tables_init t buf : RegPass_tables t (RegPass_init buf).
Proof. split; [apply RegPass_init_ok|reflexivity|reflexivity]. Qed.

Lemma AssignStep_tables t arg i st :
  RegPass_tables t st -> cursor_exhausted t st arg = false ->
  RegPass_tables t (AssignStep t arg i st).
Proof.
  intros [Hok Hint Hflt] Hex.
  destruct (next_reg_spec t st arg Hok Hex) as (_ & H64 & Hfr).
  split; [now apply AssignStep_ok| |];
    unfold int_regs, flt_regs in *; unfold AssignStep;
    cbn [assigned numIntRegs numFltRegs];
    rewrite map_app, filter_app; cbn [map filter snd];
    rewrite ?H64, ?Hfr; rewrite ?Hint, ?Hflt;
    unfold cursor_exhausted, next_reg in *;
    destruct Hok as [Hi Hf _ _];
    destruct (IsFloat (type arg)); cbn [negb];
    rewrite ?app_nil_r; try reflexivity; apply Z.leb_gt in Hex.
  - rewrite Z2Nat.inj_add, Nat.add_1_r by lia.
    symmetry. apply firstn_S_snoc_gen.
    unfold g_amd64IntParamsCount in Hex. lia.
  - rewrite Z2Nat.inj_add, Nat.add_1_r by lia.
    symmetry. apply firstn_S_snoc_gen.
    unfold g_amd64FltParamsCount in Hex. lia.
Qed.

Lemma RegisterPass_tables t args :
  forall i st, RegPass_tables t st ->
  RegPass_tables t (RegisterPass t args i st).
Proof.
  induction args as [|arg rest IH]; intros i st Hst; [exact Hst|].
  rewrite RegisterPass_cons.
  destruct (cursor_exhausted t st arg) eqn:Hex; [exact Hst|].
  now apply IH, AssignStep_tables.
Qed.

Lemma NoDup_filter_split {A} (p q : A -> bool) (l : list A) :
  (forall x, In x l -> q x = negb (p x)) ->
  NoDup (filter p l) -> NoDup (filter q l) -> NoDup l.
Proof.
  induction l as [|a l IH]; intros Hpq Hp Hq; [constructor|].
  assert (Hl : NoDup l).
  { apply IH.
    - intros x Hx. apply Hpq. now right.
    - cbn in Hp. destruct (p a); [now inversion Hp|assumption].
    - cbn in Hq. destruct (q a); [now inversion Hq|assumption]. }
  constructor; [|exact Hl].
  intros Hin. pose proof (Hpq a (or_introl eq_refl)) as Ha.
  cbn in Hp, Hq. destruct (p a) eqn:Hpa.
  - inversion Hp as [|? ? Hnotin _]; subst. apply Hnotin.
    apply filter_In. now split.
  - cbn in Ha. rewrite Ha in Hq.
    inversion Hq as [|? ? Hnotin _]; subst. apply Hnotin.
    apply filter_In. now split.
Qed.

Lemma NoDup_firstn {A} (l : list A) n : NoDup l -> NoDup (firstn n l).
Proof.
  intros H. rewrite <- (firstn_skipn n l) in H.
  now apply NoDup_app_remove_r in H.
Qed.

Lemma NoDup_IntParams t : NoDup (g_amd64IntParams t).
Proof.
  destruct t; cbn;
    repeat (constructor; [cbn; intuition discriminate|]); constructor.
Qed.

Lemma NoDup_FltParams t : NoDup (g_amd64FltParams t).
Proof.
  destruct t; cbn;
    repeat (constructor; [cbn; intuition discriminate|]); constructor.
Qed.

Lemma assigned_in_tables t args r :
  In r (map snd (RegisterAssignment t args)) ->
  In r (g_amd64IntParams t) \/ In r (g_amd64FltParams t).
Proof.
  intros Hin. apply in_map_iff in Hin. destruct Hin as ([j r'] & Heq & Hin).
  cbn in Heq. subst r'.
  destruct (RegisterPass_prefix t args 0 _ (RegPass_init_ok t [])
              (Z.le_refl 0) (Last_before_init []))
    as (k & new & [_ Has _ Hcl _ _ _ _]).
  unfold RegisterAssignment in Hin. rewrite Has in Hin.
  specialize (Hcl j r Hin). unfold params_of in Hcl.
  destruct (IsFloat _); auto.
Qed.

(** X2: no physical register is handed to two arguments.  The integer
    registers handed out are the leading entries of the integer table, in
    table order and without a gap, and likewise the vector registers. *)
Theorem X2_registers_in_table_order_without_repetition : forall t args,
  let st := RegisterPass t args 0 (RegPass_init []) in
  NoDup (map snd (RegisterAssignment t args)) /\
  int_regs (RegisterAssignment t args)
    = firstn (Z.to_nat (numIntRegs st)) (g_amd64IntParams t) /\
  flt_regs (RegisterAssignment t args)
    = firstn (Z.to_nat (numFltRegs st)) (g_amd64FltParams t).
Proof.
  intros t args st.
  destruct (RegisterPass_tables t args 0 _ (RegPass_tables_init t []))
    as [_ Hint Hflt].
  fold st in Hint, Hflt. unfold RegisterAssignment. fold st.
  split; [|split; assumption].
  apply (NoDup_filter_split Is64Reg IsFltReg).
  - intros r Hr.
    destruct (assigned_in_tables t args r Hr) as [Hin|Hin];
      destruct t; cbn in Hin;
      repeat (destruct Hin as [<-|Hin]; [reflexivity|]); contradiction.
  - fold (int_regs (assigned st)). rewrite Hint.
    apply NoDup_firstn, NoDup_IntParams.
  - fold (flt_regs (assigned st)). rewrite Hflt.
    apply NoDup_firstn, NoDup_FltParams.
Qed.

(** X3: the register that carries the target address, [RAX], the stack
    pointer and the frame pointer are never handed to an argument, so the
    load of the address behind the argument loads overwrites none of
    them. *)
Theorem X3_scratch_and_frame_registers_stay_free : forall t args r,
  In r (map snd (RegisterAssignment t args)) ->
  r <> RAX /\ r <> RSP /\ r <> RBP /\ r <> R10.
Proof.
  intros t args r Hr.
  destruct (assigned_in_tables t args r Hr) as [Hin|Hin];
    destruct t; cbn in Hin;
    repeat (destruct Hin as [<-|Hin]; [repeat split; discriminate|]);
    contradiction.
Qed.

Lemma X3_scratch_and_frame_registers_stay_free_witness :
  RDX <> RAX /\ RDX <> RSP /\ RDX <> RBP /\ RDX <> R10.
Proof.
  apply (X3_scratch_and_frame_registers_stay_free
           SystemV [DW 1; QW 2; DW 3] RDX).
  cbn. auto.
Defined.

(** ** The register loads *)

Lemma RegisterPass_loads t args :
  forall i st, 0 <= i ->
  exists new,
    assigned (RegisterPass t args i st) = assigned st ++ new /\
    Forall (fun p => i <= fst p) new /\
    assembly (RegisterPass t args i st)
    = assembly st
      ++ concat (map (fun p => MoveArgIntoReg (snd p)
                        (nth (Z.to_nat (fst p - i)) args dummy_arg) []) new).
Proof.
  induction args as [|arg rest IH]; intros i st Hi.
  - exists []. cbn. rewrite !app_nil_r. auto.
  - rewrite RegisterPass_cons.
    destruct (cursor_exhausted t st arg).
    + exists []. cbn. rewrite !app_nil_r. auto.
    + destruct (IH (i + 1) (AssignStep t arg i st) ltac:(lia))
        as (new & Has & Hall & Hcode).
      exists ((i, next_reg t st arg) :: new).
      split; [rewrite Has; cbn; now rewrite <- app_assoc|].
      split.
      * constructor; [cbn; lia|].
        eapply Forall_impl; [|exact Hall]. cbn. intros; lia.
      * rewrite Hcode. unfold AssignStep at 1. cbn [assembly].
        rewrite (Appends_MoveArgIntoReg _ _ (assembly st)), <- app_assoc.
        f_equal. cbn [map concat fst snd].
        replace (i - i) with 0 by lia. cbn [Z.to_nat nth]. f_equal. f_equal.
        apply map_ext_in. intros p Hp.
        rewrite Forall_forall in Hall. specialize (Hall p Hp). cbn in Hall.
        replace (Z.to_nat (fst p - i)) with (S (Z.to_nat (fst p - (i + 1))))
          by lia.
        reflexivity.
Qed.

Lemma RegisterLoads_code t args :
  RegisterLoads t args
  = concat (map (load_code args) (RegisterAssignment t args)).
Proof.
  destruct (RegisterPass_loads t args 0 (RegPass_init []) (Z.le_refl 0))
    as (new & Has & _ & Hcode).
  unfold RegisterLoads, RegisterAssignment. rewrite Hcode, Has.
  cbn [RegPass_init assigned assembly app]. f_equal.
  apply map_ext. intros p. unfold load_code. now rewrite Z.sub_0_r.
Qed.

(** X4: the register loads stand in the code in the order of the arguments,
    one for every assignment and nothing between them: the load of the
    argument with index [i] into its register [r] is the code of
    [MoveArgIntoReg r args[i]]. *)
Theorem X4_register_loads_in_argument_order : forall t args addr conv far buf,
  Z.of_nat (length args) < SIZE_MAX ->
  WriteFuncCall t args addr conv far buf
  = buf ++ concat (map (load_code args) (RegisterAssignment t args))
        ++ spill_code (rev (Unassigned t args))
        ++ MovRegImm64 RAX addr [] ++ CallNear RAX [].
Proof.
  intros t args addr conv far buf Hnum.
  rewrite WriteFuncCall_code by assumption.
  now rewrite RegisterLoads_code.
Qed.

(** The theorem on a call with a [DWord] and a [QWord] argument under the
    Windows tables: [mov ecx, 1], [mov rdx, 2], the call. *)
Lemma X4_register_loads_in_argument_order_witness :
  WriteFuncCall Win32 [DW 1; QW 2] 0 CDecl false []
  = [] ++ ([0xB9; 1; 0; 0; 0] ++ [0x48; 0xBA; 2; 0; 0; 0; 0; 0; 0; 0] ++ [])
       ++ []
       ++ MovRegImm64 RAX 0 [] ++ CallNear RAX [].
Proof.
  exact (X4_register_loads_in_argument_order
           Win32 [DW 1; QW 2] 0 CDecl false [] eq_refl).
Defined.

(** ** Argument lists that fit the registers *)

Lemma count_int_flt_length args :
  count_int args + count_flt args = Z.of_nat (length args).
Proof.
  unfold count_int, count_flt.
  induction args as [|a l IH]; [reflexivity|].
  cbn [filter length]. destruct (IsFloat (type a)); cbn [negb length]; lia.
Qed.

Lemma RegisterPass_all t args :
  forall i st, RegPass_ok t st ->
  numIntRegs st + count_int args <= g_amd64IntParamsCount t ->
  numFltRegs st + count_flt args <= g_amd64FltParamsCount t ->
  length (assigned (RegisterPass t args i st))
  = (length (assigned st) + length args)%nat.
Proof.
  induction args as [|arg rest IH]; intros i st Hok HI HF.
  - cbn. lia.
  - rewrite RegisterPass_cons.
    assert (Hex : cursor_exhausted t st arg = false).
    { unfold cursor_exhausted, count_int, count_flt in *.
      cbn [filter] in HI, HF.
      destruct (IsFloat (type arg)); cbn [negb length] in HI, HF;
        apply Z.leb_gt; lia. }
    rewrite Hex, IH.
    + unfold AssignStep; cbn [assigned]. rewrite length_app. cbn. lia.
    + now apply AssignStep_ok.
    + unfold AssignStep, count_int in *; cbn [numIntRegs filter] in *.
      destruct (IsFloat (type arg)); cbn [negb length] in *; lia.
    + unfold AssignStep, count_flt in *; cbn [numFltRegs filter] in *.
      destruct (IsFloat (type arg)); cbn [negb length] in *; lia.
Qed.

(** X5: an argument list with no more integer arguments than there are
    integer parameter registers and no more floating-point arguments than
    there are floating-point parameter registers goes to registers as a
    whole: every argument is assigned, the stack pass pushes nothing, the
    code is the register loads and the call, and at the return the stack
    pointer is back at its value on entry. *)
Theorem X5_arguments_that_fit_the_registers :
  forall t args addr conv far buf,
  count_int args <= g_amd64IntParamsCount t ->
  count_flt args <= g_amd64FltParamsCount t ->
  map fst (RegisterAssignment t args) = indices_from 0 (length args) /\
  Unassigned t args = [] /\
  WriteFuncCall t args addr conv far buf
    = buf ++ RegisterLoads t args
          ++ MovRegImm64 RAX addr [] ++ CallNear RAX [] /\
  StackDisplacement (GenerateCall t args addr conv far) = Some 0.
Proof.
  intros t args addr conv far buf HI HF.
  assert (Hnum : Z.of_nat (length args) < SIZE_MAX).
  { rewrite <- count_int_flt_length.
    destruct t; cbn in HI, HF; unfold SIZE_MAX; lia. }
  assert (Hlen : length (RegisterAssignment t args) = length args).
  { unfold RegisterAssignment.
    rewrite RegisterPass_all;
      [reflexivity|apply RegPass_init_ok|cbn; lia|cbn; lia]. }
  assert (Hun : Unassigned t args = []).
  { unfold Unassigned. rewrite Hlen. apply skipn_all. }
  split.
  { destruct (RegisterPass_prefix t args 0 _ (RegPass_init_ok t [])
                (Z.le_refl 0) (Last_before_init []))
      as (k & new & [_ Has Hidx _ _ _ _ _]).
    unfold RegisterAssignment in *. rewrite Has in *.
    cbn [RegPass_init assigned app] in *. rewrite Hidx.
    rewrite <- (length_map fst), Hidx in Hlen.
    unfold indices_from in Hlen. rewrite length_map, length_seq in Hlen.
    now rewrite Hlen. }
  split; [exact Hun|]. split.
  - rewrite WriteFuncCall_code, Hun by assumption. reflexivity.
  - apply GenerateCall_balanced_without_pushes; [assumption|].
    now rewrite Hun.
Qed.

(** The theorem on three integer and two floating-point arguments under the
    Windows tables. *)
Lemma X5_arguments_that_fit_the_registers_witness :
  map fst (RegisterAssignment Win32 [DW 1; FL 2; QW 3; FL 4; DW 5])
    = [0; 1; 2; 3; 4] /\
  StackDisplacement
    (GenerateCall Win32 [DW 1; FL 2; QW 3; FL 4; DW 5] 0x1000 CDecl false)
    = Some 0.
Proof.
  destruct (X5_arguments_that_fit_the_registers
              Win32 [DW 1; FL 2; QW 3; FL 4; DW 5] 0x1000 CDecl false [])
    as (H1 & _ & _ & H4); [cbn; lia|cbn; lia|].
  split; [exact H1|exact H4].
Defined.

(** ** The size of the code *)

Lemma MoveArgIntoReg_length r arg :
  (length (MoveArgIntoReg r arg []) <= 10)%nat.
Proof.
  destruct arg as [ty v]. destruct r, ty; cbn; lia.
Qed.

Lemma PushArg_length arg : (length (PushArg arg []) <= 5)%nat.
Proof. destruct arg as [ty v]. destruct ty; cbn; lia. Qed.

Lemma concat_map_length_le {A} (f : A -> Assembly) (c : nat) (l : list A) :
  (forall a, (length (f a) <= c)%nat) ->
  (length (concat (map f l)) <= c * length l)%nat.
Proof.
  intros Hf. induction l as [|a l IH]; [cbn; lia|].
  cbn [map concat length]. rewrite length_app. specialize (Hf a). lia.
Qed.

Lemma RegisterAssignment_length t args :
  (length (RegisterAssignment t args) <= length args)%nat.
Proof. pose proof (Unassigned_length t args). lia. Qed.

(** X6: the whole sequence has 32 bytes, for the prologue, the load of the
    address, the call and the epilogue, and at most ten more for each
    argument: a register load has at most ten bytes, a push at most five. *)
Theorem X6_code_size_bound : forall t args addr conv far,
  Z.of_nat (length args) < SIZE_MAX ->
  (32 <= length (GenerateCall t args addr conv far)
      <= 32 + 10 * length args)%nat.
Proof.
  intros t args addr conv far Hnum.
  unfold GenerateCall, seq_emit.
  rewrite Appends_End, WriteFuncCall_code by assumption.
  rewrite RegisterLoads_code. rewrite !length_app.
  change (length (Begin [])) with 11%nat.
  change (length (End [])) with 9%nat.
  change (length (CallNear RAX [])) with 2%nat.
  change (length (MovRegImm64 RAX addr [])) with 10%nat.
  pose proof (concat_map_length_le (load_code args) 10
                (RegisterAssignment t args)
                (fun p => MoveArgIntoReg_length _ _)) as Hloads.
  pose proof (concat_map_length_le (fun a => PushArg a []) 5
                (rev (Unassigned t args)) PushArg_length) as Hspill.
  fold (spill_code (rev (Unassigned t args))) in Hspill.
  rewrite length_rev in Hspill.
  pose proof (Unassigned_length t args) as Hun.
  pose proof (RegisterAssignment_length t args) as Hle.
  lia.
Qed.

(** The theorem on the empty argument list, where the sequence has exactly
    32 bytes. *)
Lemma X6_code_size_bound_witness :
  (32 <= length (GenerateCall SystemV [] 0 CDecl false) <= 32 + 10 * 0)%nat.
Proof.
  exact (X6_code_size_bound SystemV [] 0 CDecl false eq_refl).
Defined.

(** ** The target of the call *)

Lemma u8_mod z : u8 z = z mod 256.
Proof. unfold u8. change 0xFF with (Z.ones 8). now rewrite Z.land_ones. Qed.

Lemma le_bytes_imm32 d : 0 <= d < 2 ^ 32 -> le_bytes (imm32 d) = d.
Proof.
  intros H. unfold le_bytes, imm32. cbn [fold_right].
  rewrite !u8_mod, !Z.shiftr_div_pow2 by lia.
  change (2 ^ 8) with 256. change (2 ^ 16) with 65536.
  change (2 ^ 24) with 16777216. change (2 ^ 32) with 4294967296 in H.
  Z.div_mod_to_equations. lia.
Qed.

Lemma le_bytes_app a b :
  le_bytes (a ++ b) = le_bytes a + 256 ^ Z.of_nat (length a) * le_bytes b.
Proof.
  induction a as [|x a IH];
    [unfold le_bytes; cbn [app length fold_right Z.of_nat];
     change (256 ^ 0) with 1; lia|].
  cbn [app length]. unfold le_bytes in *. cbn [fold_right].
  rewrite IH, Nat2Z.inj_succ, Z.pow_succ_r by lia. lia.
Qed.

Lemma le_bytes_imm64 q : 0 <= q < 2 ^ 64 -> le_bytes (imm64 q) = q.
Proof.
  intros H. unfold imm64. rewrite le_bytes_app.
  assert (Hlow : le_bytes (imm32 q) = q mod 2 ^ 32).
  { unfold le_bytes, imm32. cbn [fold_right].
    rewrite !u8_mod, !Z.shiftr_div_pow2 by lia.
    change (2 ^ 8) with 256. change (2 ^ 16) with 65536.
    change (2 ^ 24) with 16777216. change (2 ^ 32) with 4294967296.
    Z.div_mod_to_equations. lia. }
  rewrite Hlow, le_bytes_imm32.
  - rewrite Z.shiftr_div_pow2 by lia.
    change (256 ^ Z.of_nat (length (imm32 q))) with (2 ^ 32).
    pose proof (Z.div_mod q (2 ^ 32)). lia.
  - rewrite Z.shiftr_div_pow2 by lia.
    change (2 ^ 64) with (2 ^ 32 * 2 ^ 32) in H.
    split; [apply Z.div_pos; lia|apply Z.div_lt_upper_bound; lia].
Qed.

(** ** Floating-point arguments in registers *)



(** ** Where the call goes *)

(** X7: the code of [WriteFuncCall] ends with the load of an eight-byte
    immediate into [RAX] and the call through [RAX], and the eight bytes,
    read low byte first, are the address that was passed in. *)
Theorem X7_call_goes_to_the_address : forall t args addr conv far buf,
  0 <= addr < 2 ^ 64 ->
  exists pre imm,
    WriteFuncCall t args addr conv far buf
      = pre ++ [0x48; 0xB8] ++ imm ++ [0xFF; 0xD0] /\
    length imm = 8%nat /\
    le_bytes imm = addr.
Proof.
  intros t args addr conv far buf Haddr.
  unfold WriteFuncCall.
  set (b := StackPass _ _ _ _ _ _ _).
  rewrite (Appends_seq _ _ (Appends_MovRegImm64 RAX addr) (Appends_CallNear RAX)).
  rewrite seq_emit_nil by auto with emit.
  exists b, (imm64 addr).
  split; [reflexivity|]. split; [reflexivity|].
  now apply le_bytes_imm64.
Qed.

(** The theorem at the address [0x7FFF12345678]. *)
Lemma X7_call_goes_to_the_address_witness :
  exists pre imm,
    WriteFuncCall SystemV [DW 1] 0x7FFF12345678 CDecl false []
      = pre ++ [0x48; 0xB8] ++ imm ++ [0xFF; 0xD0] /\
    length imm = 8%nat /\
    le_bytes imm = 0x7FFF12345678.
Proof.
  apply (X7_call_goes_to_the_address SystemV [DW 1] 0x7FFF12345678
           CDecl false []).
  lia.
Defined.

(** ** Whole instructions *)

Lemma epilogue_Straight : Straight ([0x48; 0x81; 0xC4; 0x20; 0; 0; 0] ++ [0x5D]) 40.
Proof.
  change 40 with (32 + (8 + 0)). rewrite <- (app_nil_r [0x5D]).
  repeat (apply Straight_cons; [intros rest; reflexivity|]). constructor.
Qed.

(** X8: the generated sequence is made of whole instructions.  It is
    straight-line code, every byte of which belongs to one of the emitted
    instructions and none of which is a return, followed by the return
    [C3] as its last byte. *)
Theorem X8_generated_code_is_whole_instructions :
  forall t args addr conv far,
  Z.of_nat (length args) < SIZE_MAX ->
  exists code d,
    GenerateCall t args addr conv far = code ++ [Opcode_RetNear] /\
    Straight code d /\
    decode [Opcode_RetNear] = Some (Return, []).
Proof.
  intros t args addr conv far Hnum. unfold GenerateCall, seq_emit.
  rewrite Appends_End, WriteFuncCall_code by assumption.
  rewrite End_code.
  exists (([] ++ Begin []) ++ RegisterLoads t args
          ++ spill_code (rev (Unassigned t args))
          ++ (MovRegImm64 RAX addr [] ++ CallNear RAX [])
          ++ [0x48; 0x81; 0xC4; 0x20; 0; 0; 0] ++ [0x5D]).
  eexists. split; [|split; [|reflexivity]].
  - rewrite <- !app_assoc. reflexivity.
  - apply Straight_app; [apply Begin_Straight|].
    apply Straight_app; [apply RegisterLoads_Straight|].
    apply Straight_app; [apply spill_code_Straight|].
    apply Straight_app; [apply call_Straight|].
    apply epilogue_Straight.
Qed.

(** The theorem on seven [DWord] arguments under the System V tables. *)
Lemma X8_generated_code_is_whole_instructions_witness :
  exists code d,
    GenerateCall SystemV (repeat (DW 1) 7) 0 CDecl false
      = code ++ [Opcode_RetNear] /\
    Straight code d /\
    decode [Opcode_RetNear] = Some (Return, []).
Proof.
  exact (X8_generated_code_is_whole_instructions
           SystemV (repeat (DW 1) 7) 0 CDecl false eq_refl).
Defined.

(** ** ModR/M bytes *)

(** X9: the instructions that share an opcode byte are told apart by the
    digit in the register field of their ModR/M byte, as the opcode table
    notes them: [81 /0] for [AddImm32], [81 /5] for [SubImm32], [F7 /6] for
    [DivReg], [FF /2] for [CallNear]; [MovReg] puts the source register
    there.  All of them address a register (mode [11]) and name it in the
    r/m field. *)
Theorem X9_modrm_fields : forall reg src imm,
  Is64Reg reg = true ->
  (exists rex m, AddImm32 reg imm [] = [rex; 0x81; m] ++ imm32 imm /\
     modrm_mod m = 3 /\ modrm_reg m = 0 /\ modrm_rm m = RegByte reg) /\
  (exists rex m, SubImm32 reg imm [] = [rex; 0x81; m] ++ imm32 imm /\
     modrm_mod m = 3 /\ modrm_reg m = 5 /\ modrm_rm m = RegByte reg) /\
  (exists rex m, DivReg reg [] = [rex; 0xF7; m] /\
     modrm_mod m = 3 /\ modrm_reg m = 6 /\ modrm_rm m = RegByte reg) /\
  (exists m, CallNear reg [] = [0xFF; m] /\
     modrm_mod m = 3 /\ modrm_reg m = 2 /\ modrm_rm m = RegByte reg) /\
  (exists rex m, MovReg reg src [] = [rex; 0x89; m] /\
     modrm_mod m = 3 /\ modrm_reg m = RegByte src /\ modrm_rm m = RegByte reg).
Proof.
  intros reg src imm H64.
  split; [|split; [|split; [|split]]].
  - destruct reg; try discriminate H64;
      do 2 eexists; (split; [reflexivity|]); repeat split.
  - destruct reg; try discriminate H64;
      do 2 eexists; (split; [reflexivity|]); repeat split.
  - destruct reg; try discriminate H64;
      do 2 eexists; (split; [reflexivity|]); repeat split.
  - destruct reg; try discriminate H64;
      eexists; (split; [reflexivity|]); repeat split.
  - destruct reg; try discriminate H64; destruct src;
      do 2 eexists; (split; [reflexivity|]); repeat split.
Qed.

(** The theorem at [sub rsp, 0x20] and [mov rbp, rsp] of the prologue. *)
Lemma X9_modrm_fields_witness :
  (exists rex m, SubImm32 RSP 0x20 [] = [rex; 0x81; m] ++ imm32 0x20 /\
     modrm_mod m = 3 /\ modrm_reg m = 5 /\ modrm_rm m = RegByte RSP) /\
  (exists rex m, MovReg RBP RSP [] = [rex; 0x89; m] /\
     modrm_mod m = 3 /\ modrm_reg m = RegByte RSP /\ modrm_rm m = RegByte RBP).
Proof.
  destruct (X9_modrm_fields RSP RSP 0x20 eq_refl) as (_ & Hsub & _).
  destruct (X9_modrm_fields RBP RSP 0 eq_refl) as (_ & _ & _ & _ & Hmov).
  split; assumption.
Defined.

(** ** Displacements that read back *)









(** ** Returns *)

(** X11: a return with a stack adjustment carries it as a two-byte
    immediate that reads back as the adjustment, behind [C2] for a near and
    [CA] for a far return; without an adjustment the return is the single
    byte [C3], respectively [CB], and has no immediate. *)
Theorem X11_return_immediate : forall word,
  0 <= word < 2 ^ 16 ->
  (word = 0 -> RetNear word [] = [0xC3] /\ RetFar word [] = [0xCB]) /\
  (0 < word ->
   exists lo hi,
     RetNear word [] = [0xC2; lo; hi] /\
     RetFar word [] = [0xCA; lo; hi] /\
     le_bytes [lo; hi] = word).
Proof.
  intros word H. split.
  - intros ->. split; reflexivity.
  - intros Hpos. unfold RetNear, RetFar.
    destruct (Z.ltb_spec 0 word); [|lia].
    exists (u8 word), (u8 (Z.shiftr word 8)).
    split; [reflexivity|]. split; [reflexivity|].
    unfold le_bytes. cbn [fold_right].
    rewrite !u8_mod, Z.shiftr_div_pow2 by lia.
    change (2 ^ 8) with 256. change (2 ^ 16) with 65536 in H.
    Z.div_mod_to_equations. lia.
Qed.

(** The theorem at [ret 0x1234]. *)
Lemma X11_return_immediate_witness :
  exists lo hi,
    RetNear 0x1234 [] = [0xC2; lo; hi] /\
    RetFar 0x1234 [] = [0xCA; lo; hi] /\
    le_bytes [lo; hi] = 0x1234.
Proof.
  apply (X11_return_immediate 0x1234); lia.
Defined.

(** ** The immediates carry the arguments *)

Lemma land_ones_small v n :
  0 <= n -> 0 <= v < 2 ^ n -> Z.land v (Z.ones n) = v.
Proof. intros Hn H. rewrite Z.land_ones by lia. apply Z.mod_small. lia. Qed.

Lemma MovRegImm32_code r d :
  MovRegImm32 r d [] = [u8 (Z.lor Opcode_MovRegImm (RegByte r))] ++ imm32 d.
Proof.
  unfold MovRegImm32. rewrite WriteByte_seq_nil by auto with emit.
  now rewrite WriteDWord_bytes.
Qed.

Lemma MovRegImm64_code r q :
  MovRegImm64 r q []
  = (WriteREXOpt r [] ++ [u8 (Z.lor Opcode_MovRegImm (RegByte r))]) ++ imm64 q.
Proof.
  unfold MovRegImm64. rewrite seq_emit_nil by auto with emit.
  rewrite WriteByte_seq_nil by auto with emit.
  rewrite WriteQWord_bytes. now rewrite <- app_assoc.
Qed.

(** X15: the register load of an integer argument into a 64-bit register
    carries the value of the argument.  When the payload lies within the
    width of the type of the argument, the load is the opcode [B8+r] with an
    immediate that reads back as the payload: a four-byte immediate and no
    prefix for a [Byte], [Word] or [DWord] in one of the base registers, an
    eight-byte immediate behind the prefix [48] for a [QWord] or [Ptr] in a
    base register, and an eight-byte immediate behind the prefix [49] for an
    argument of any type in one of [R8] .. [R15]. *)
Theorem X15_register_load_carries_the_argument : forall r arg,
  Is64Reg r = true ->
  IsFloat (type arg) = false ->
  0 <= value arg < 2 ^ arg_bits (type arg) ->
  let wide := IsExtReg r || (arg_bits (type arg) =? 64) in
  exists imm,
    MoveArgIntoReg r arg []
      = (if wide then [expected_REX r] else [])
        ++ [u8 (Z.lor Opcode_MovRegImm (RegByte r))] ++ imm /\
    length imm = (if wide then 8%nat else 4%nat) /\
    le_bytes imm = value arg.
Proof.
  intros r [ty v] Hr Hfl Hv wide. subst wide. cbn [type value] in *.
  assert (H64 : 0 <= v < 2 ^ 64).
  { destruct ty; cbn [arg_bits] in Hv; try discriminate Hfl; lia. }
  assert (Hi64 : i64 v = v).
  { unfold i64. change 0xFFFFFFFFFFFFFFFF with (Z.ones 64).
    apply land_ones_small; lia. }
  assert (Hrex : WriteREXOpt r [] = [expected_REX r])
    by (rewrite WriteREXOpt_bytes, Hr; reflexivity).
  unfold MoveArgIntoReg. cbn [type value].
  fold (IsExtReg r). destruct (IsExtReg r); cbn [orb].
  - exists (imm64 v). rewrite Hi64, MovRegImm64_code, Hrex, <- app_assoc.
    split; [reflexivity|]. split; [reflexivity|].
    now apply le_bytes_imm64.
  - destruct ty; try discriminate Hfl; cbn [arg_bits] in Hv |- *;
      cbn [Z.eqb Pos.eqb].
    + exists (imm32 v). rewrite MovRegImm32_code.
      replace (i8 v) with v
        by (symmetry; unfold i8; change 0xFF with (Z.ones 8);
            apply land_ones_small; lia).
      split; [reflexivity|]. split; [reflexivity|].
      apply le_bytes_imm32; lia.
    + exists (imm32 v). rewrite MovRegImm32_code.
      replace (i16 v) with v
        by (symmetry; unfold i16; change 0xFFFF with (Z.ones 16);
            apply land_ones_small; lia).
      split; [reflexivity|]. split; [reflexivity|].
      apply le_bytes_imm32; lia.
    + exists (imm32 v). rewrite MovRegImm32_code.
      replace (i32 v) with v
        by (symmetry; unfold i32; change 0xFFFFFFFF with (Z.ones 32);
            apply land_ones_small; lia).
      split; [reflexivity|]. split; [reflexivity|].
      apply le_bytes_imm32; lia.
    + exists (imm64 v). rewrite Hi64, MovRegImm64_code, Hrex, <- app_assoc.
      split; [reflexivity|]. split; [reflexivity|].
      now apply le_bytes_imm64.
    + exists (imm64 v). rewrite Hi64, MovRegImm64_code, Hrex, <- app_assoc.
      split; [reflexivity|]. split; [reflexivity|].
      now apply le_bytes_imm64.
Qed.

(** The theorem on the [Word] argument [0x1234] in [R8]: ten bytes, [49 B8]
    and the eight bytes of the value. *)
Lemma X15_register_load_carries_the_argument_witness :
  exists imm,
    MoveArgIntoReg R8 (mkArg Word 0x1234) [] = [0x49] ++ [0xB8] ++ imm /\
    length imm = 8%nat /\
    le_bytes imm = 0x1234.
Proof.
  apply (X15_register_load_carries_the_argument R8 (mkArg Word 0x1234)).
  - reflexivity.
  - reflexivity.
  - cbn. lia.
Defined.

(** X16: a push carries the bits of the argument that belong to its type:
    a [Byte] is pushed by the opcode [6A] and one byte that is the low 8
    bits of the payload, a [Word], a [DWord] and a [Float] by the opcode
    [68] and four bytes that read back as the low 16, respectively 32, bits
    of the payload. *)
Theorem X16_push_carries_the_argument : forall arg,
  is_pushed arg = true ->
  exists imm,
    PushArg arg []
      = (if arg_bits (type arg) =? 8 then Opcode_PushImm8 else Opcode_PushImm)
        :: imm /\
    length imm = (if arg_bits (type arg) =? 8 then 1%nat else 4%nat) /\
    le_bytes imm = value arg mod 2 ^ arg_bits (type arg).
Proof.
  intros [ty v] Hp. unfold is_pushed in Hp. cbn [type value] in *.
  assert (Hmod32 : forall x, le_bytes (imm32 (Z.land x (Z.ones 32)))
                             = x mod 2 ^ 32).
  { intros x. rewrite Z.land_ones by lia. apply le_bytes_imm32.
    apply Z.mod_pos_bound. lia. }
  unfold PushArg, PushImm16, PushImm32, PushImm8. cbn [type value].
  destruct ty; try discriminate Hp; cbn [arg_bits Z.eqb Pos.eqb].
  - exists [u8 (i8 v)].
    split; [reflexivity|]. split; [reflexivity|].
    unfold le_bytes, i8. cbn [fold_right]. rewrite u8_mod.
    change 0xFF with (Z.ones 8). rewrite Z.land_ones by lia.
    rewrite Z.mod_mod by lia. change (2 ^ 8) with 256. lia.
  - exists (imm32 (i16 v)).
    split; [rewrite WriteByte_seq_nil, WriteDWord_bytes by auto with emit;
            reflexivity|].
    split; [reflexivity|].
    unfold i16. change 0xFFFF with (Z.ones 16). rewrite Z.land_ones by lia.
    apply le_bytes_imm32.
    pose proof (Z.mod_pos_bound v (2 ^ 16)). lia.
  - exists (imm32 (i32 v)).
    split; [rewrite WriteByte_seq_nil, WriteDWord_bytes by auto with emit;
            reflexivity|].
    split; [reflexivity|]. apply Hmod32.
  - exists (imm32 (i32 v)).
    split; [rewrite WriteByte_seq_nil, WriteDWord_bytes by auto with emit;
            reflexivity|].
    split; [reflexivity|]. apply Hmod32.
Qed.

(** The theorem on the [DWord] argument [0x11223344]. *)
Lemma X16_push_carries_the_argument_witness :
  exists imm,
    PushArg (DW 0x11223344) [] = 0x68 :: imm /\
    length imm = 4%nat /\
    le_bytes imm = 0x11223344.
Proof.
  apply (X16_push_carries_the_argument (DW 0x11223344)). reflexivity.
Defined.

(** * Vertex formats *)

Section VertexFormatProperties.

Import VertexFormat.

Variable DataType : Type.
Variable GetDataTypeSize : DataType -> Z.
Hypothesis GetDataTypeSize_nonneg : forall dt, 0 <= GetDataTypeSize dt.

#[local] Abbreviation AddAttribute := (AddAttribute DataType GetDataTypeSize).
#[local] Abbreviation AddAttributes := (AddAttributes DataType GetDataTypeSize).
#[local] Abbreviation Layout := (Layout DataType GetDataTypeSize).
#[local] Abbreviation Packed := (Packed DataType GetDataTypeSize).
#[local] Abbreviation attribute_size := (attribute_size DataType GetDataTypeSize).
#[local] Abbreviation total_size := (total_size DataType GetDataTypeSize).

Lemma attribute_size_nonneg a :
  valid_components (components a) -> 0 <= attribute_size a.
Proof.
  intros Hc. unfold VertexFormat.attribute_size, valid_components in *.
  pose proof (GetDataTypeSize_nonneg (dataType a)). nia.
Qed.

Lemma Packed_snoc attrs : forall start total a,
  Packed start attrs total -> offset a = total ->
  Packed start (attrs ++ [a]) (total + attribute_size a).
Proof.
  induction attrs as [|b attrs IH]; intros start total a Hp Ha; cbn in *.
  - subst. split; reflexivity.
  - destruct Hp as [Hb Hp]. split; [assumption|]. now apply IH.
Qed.

Lemma Packed_bounds attrs : forall start total,
  Packed start attrs total ->
  Forall (fun a => valid_components (components a)) attrs ->
  start <= total /\
  forall b, In b attrs ->
    start <= offset b /\ offset b + attribute_size b <= total.
Proof.
  induction attrs as [|a attrs IH]; intros start total Hp Hv; cbn in Hp.
  - subst. split; [lia|]. intros b [].
  - destruct Hp as [Ha Hp]. inversion Hv as [|? ? Hva Hvs]; subst.
    pose proof (attribute_size_nonneg a Hva) as Hsz.
    destruct (IH _ _ Hp Hvs) as [Hle Hin].
    split; [lia|]. intros b [<-|Hb]; [lia|].
    specialize (Hin b Hb). lia.
Qed.

Lemma AddAttribute_valid nm dt c fmt :
  valid_components c ->
  AddAttribute nm dt c fmt
  = Ok (mkVertexFormat DataType
          (attributes_ fmt
             ++ [mkVertexAttribute DataType dt c (formatSize_ fmt) nm])
          (u32 (formatSize_ fmt + GetDataTypeSize dt * c))).
Proof.
  intros [H1 H4]. unfold VertexFormat.AddAttribute.
  destruct (Z.ltb_spec c 1); [lia|]. destruct (Z.ltb_spec 4 c); [lia|].
  reflexivity.
Qed.

Lemma AddAttribute_Layout nm dt c fmt :
  Layout fmt -> valid_components c ->
  formatSize_ fmt + GetDataTypeSize dt * c < 2 ^ 32 ->
  Layout (mkVertexFormat DataType
            (attributes_ fmt
               ++ [mkVertexAttribute DataType dt c (formatSize_ fmt) nm])
            (u32 (formatSize_ fmt + GetDataTypeSize dt * c))) /\
  u32 (formatSize_ fmt + GetDataTypeSize dt * c)
  = formatSize_ fmt + GetDataTypeSize dt * c.
Proof.
  intros (Hp & Hv & Hr) Hc Hfit.
  pose proof (GetDataTypeSize_nonneg dt) as Hsz.
  assert (Hnn : 0 <= GetDataTypeSize dt * c)
    by (unfold valid_components in Hc; nia).
  assert (Hu : u32 (formatSize_ fmt + GetDataTypeSize dt * c)
               = formatSize_ fmt + GetDataTypeSize dt * c)
    by (apply u32_small; lia).
  split; [|exact Hu]. rewrite Hu.
  split; [|split]; cbn [attributes_ formatSize_].
  - apply (Packed_snoc _ _ _
             (mkVertexAttribute DataType dt c (formatSize_ fmt) nm) Hp).
    reflexivity.
  - apply Forall_app. split; [assumption|]. now constructor.
  - lia.
Qed.

(** X12: on a format whose attributes are packed, a call with one to four
    components, whose bytes still fit the 32-bit size, succeeds: it appends
    one attribute and leaves the others as they are, puts the new attribute
    at the old size of the format, behind the end of every attribute that is
    already there, grows the size by the bytes of the new attribute, and the
    format is packed again. *)
Theorem X12_AddAttribute_appends_behind_the_others : forall nm dt c fmt,
  Layout fmt -> valid_components c ->
  formatSize_ fmt + GetDataTypeSize dt * c < 2 ^ 32 ->
  exists fmt' a,
    AddAttribute nm dt c fmt = Ok fmt' /\
    attributes_ fmt' = attributes_ fmt ++ [a] /\
    name a = nm /\ dataType a = dt /\ components a = c /\
    offset a = formatSize_ fmt /\
    formatSize_ fmt' = formatSize_ fmt + attribute_size a /\
    (forall b, In b (attributes_ fmt) ->
       offset b + attribute_size b <= offset a) /\
    Layout fmt'.
Proof.
  intros nm dt c fmt HL Hc Hfit.
  destruct (AddAttribute_Layout nm dt c fmt HL Hc Hfit) as [HL' Hu].
  eexists. exists (mkVertexAttribute DataType dt c (formatSize_ fmt) nm).
  split; [now apply AddAttribute_valid|].
  cbn [attributes_ formatSize_ name dataType components offset].
  repeat (split; [reflexivity|]).
  split; [exact Hu|]. split; [|exact HL'].
  destruct HL as (Hp & Hv & _).
  intros b Hb. now apply (Packed_bounds _ _ _ Hp Hv).
Qed.

Lemma total_size_cons nm dt c specs :
  total_size ((nm, dt, c) :: specs)
  = GetDataTypeSize dt * c + total_size specs.
Proof. reflexivity. Qed.

Lemma total_size_nonneg specs :
  Forall (fun s => valid_components (snd s)) specs -> 0 <= total_size specs.
Proof.
  induction specs as [|[[nm dt] c] specs IH]; intros Hv; [cbn; lia|].
  inversion Hv as [|? ? Hc Hvs]; subst. cbn in Hc.
  rewrite total_size_cons. specialize (IH Hvs).
  pose proof (GetDataTypeSize_nonneg dt). unfold valid_components in Hc. nia.
Qed.

(** X13: a sequence of calls whose numbers of components are all between
    one and four, and whose bytes fit the 32-bit size together, succeeds as
    a whole: the attributes are appended in the order of the calls, the size
    grows by the sum of their bytes, and the format stays packed. *)
Theorem X13_AddAttributes_lays_attributes_out_in_order : forall specs fmt,
  Layout fmt ->
  Forall (fun s => valid_components (snd s)) specs ->
  formatSize_ fmt + total_size specs < 2 ^ 32 ->
  exists fmt',
    AddAttributes specs fmt = Ok fmt' /\
    map name (attributes_ fmt')
      = map name (attributes_ fmt) ++ map (fun s => fst (fst s)) specs /\
    formatSize_ fmt' = formatSize_ fmt + total_size specs /\
    Layout fmt'.
Proof.
  induction specs as [|[[nm dt] c] specs IH]; intros fmt HL Hv Hfit.
  - exists fmt. cbn. rewrite app_nil_r, Z.add_0_r. auto.
  - inversion Hv as [|? ? Hc Hvs]; subst. cbn in Hc.
    rewrite total_size_cons in Hfit |- *.
    pose proof (total_size_nonneg specs Hvs) as Hts.
    destruct (AddAttribute_Layout nm dt c fmt HL Hc ltac:(lia)) as [HL' Hu].
    cbn [VertexFormat.AddAttributes]. rewrite AddAttribute_valid by assumption.
    destruct (IH _ HL' Hvs) as (fmt' & Hok & Hnames & Hsize & HL'').
    { cbn [formatSize_]. rewrite Hu. lia. }
    exists fmt'. split; [exact Hok|]. split; [|split; [|exact HL'']].
    + rewrite Hnames. cbn [attributes_]. rewrite map_app, <- app_assoc.
      reflexivity.
    + rewrite Hsize. cbn [formatSize_]. rewrite Hu. lia.
Qed.

(** X14: the first call of a sequence whose number of components, an
    unsigned 32-bit number, is not between one and four ends the sequence
    with [std::invalid_argument] quoting that number, whatever the format,
    the calls before it and the calls behind it. *)
Theorem X14_AddAttributes_stops_at_first_invalid :
  forall before nm dt c after fmt,
  0 <= c < 2 ^ 32 ->
  Forall (fun s => valid_components (snd s)) before ->
  ~ valid_components c ->
  AddAttributes (before ++ (nm, dt, c) :: after) fmt = invalid_argument c.
Proof.
  induction before as [|[[nm' dt'] c'] before IH];
    intros nm dt c after fmt Hrange Hv Hc.
  - cbn [app VertexFormat.AddAttributes]. unfold VertexFormat.AddAttribute.
    unfold valid_components in Hc.
    destruct (Z.ltb_spec c 1); [reflexivity|].
    destruct (Z.ltb_spec 4 c); [reflexivity|lia].
  - inversion Hv as [|? ? Hc' Hvs]; subst. cbn in Hc'.
    cbn [app VertexFormat.AddAttributes].
    rewrite AddAttribute_valid by assumption. now apply IH.
Qed.

End VertexFormatProperties.

Lemma example_size_nonneg : forall dt, 0 <= example_size dt.
Proof. intros []; cbn; lia. Qed.

Lemma empty_format_Layout : VertexFormat.Layout bool example_size empty_format.
Proof. split; [reflexivity|]. split; [constructor|cbn; lia]. Qed.

(** The theorem on the first attribute of a format, three components of
    four bytes. *)
Lemma X12_AddAttribute_appends_behind_the_others_witness :
  exists fmt' a,
    VertexFormat.AddAttribute bool example_size "position"%string false 3 empty_format
      = VertexFormat.Ok fmt' /\
    VertexFormat.attributes_ fmt' = [] ++ [a] /\
    VertexFormat.name a = "position"%string /\
    VertexFormat.dataType a = false /\
    VertexFormat.components a = 3 /\
    VertexFormat.offset a = 0 /\
    VertexFormat.formatSize_ fmt'
      = 0 + VertexFormat.attribute_size bool example_size a /\
    (forall b, In b [] ->
       VertexFormat.offset b + VertexFormat.attribute_size bool example_size b
       <= VertexFormat.offset a) /\
    VertexFormat.Layout bool example_size fmt'.
Proof.
  apply (X12_AddAttribute_appends_behind_the_others bool example_size
           example_size_nonneg "position"%string false 3 empty_format).
  - exact empty_format_Layout.
  - unfold VertexFormat.valid_components. lia.
  - reflexivity.
Defined.

(** The theorem on a position, a normal and a texture coordinate: 12, 12
    and 16 bytes, 40 bytes in all. *)
Lemma X13_AddAttributes_lays_attributes_out_in_order_witness :
  exists fmt',
    VertexFormat.AddAttributes bool example_size
      [("position"%string, false, 3); ("normal"%string, false, 3); ("texCoord"%string, true, 2)]
      empty_format = VertexFormat.Ok fmt' /\
    map VertexFormat.name (VertexFormat.attributes_ fmt')
      = ["position"%string; "normal"%string; "texCoord"%string] /\
    VertexFormat.formatSize_ fmt' = 40 /\
    VertexFormat.Layout bool example_size fmt'.
Proof.
  apply (X13_AddAttributes_lays_attributes_out_in_order bool example_size
           example_size_nonneg
           [("position"%string, false, 3); ("normal"%string, false, 3);
            ("texCoord"%string, true, 2)] empty_format).
  - exact empty_format_Layout.
  - repeat constructor; cbn; lia.
  - reflexivity.
Defined.

(** The theorem on a sequence whose second call asks for five
    components. *)
Lemma X14_AddAttributes_stops_at_first_invalid_witness :
  VertexFormat.AddAttributes bool example_size
    ([("position"%string, false, 3)] ++ ("color"%string, false, 5) :: [("normal"%string, false, 3)])
    empty_format = VertexFormat.invalid_argument 5.
Proof.
  apply (X14_AddAttributes_stops_at_first_invalid bool example_size
           [("position"%string, false, 3)] "color"%string false 5
           [("normal"%string, false, 3)] empty_format).
  - lia.
  - repeat constructor; cbn; lia.
  - unfold VertexFormat.valid_components. lia.
Defined.
